(** * ceci/monitor.py: the [MemoryMonitor] class

    A shallow embedding of [ceci.monitor.MemoryMonitor] and proofs about
    its peak tracking, its process-tree aggregation and its shutdown paths.

    Layout:
    - [PyFloat]: Python floats as IEEE 754 binary64 values ([SpecFloat]);
    - exceptions, and a state-and-exception monad for method bodies;
    - [Psutil]: what the calls made on a [psutil.Process] handle answer;
    - the methods of [MemoryMonitor], one definition per method;
    - the text of the printed lines ([:.3f] and [:.1f]);
    - a two-thread interleaving model of the peak update;
    - lemmas on binary64 ordering and rounding, on the aggregator, the
      methods and the loop, then the properties of the specification. *)

From Stdlib Require Import ZArith List Bool String Lia SpecFloat DecimalString.
From Stdlib Require Import Permutation.
Import ListNotations.
Local Open Scope Z_scope.
Set Warnings "-register-all".

(** ** Python floats *)

Module PyFloat.

Definition prec : Z := 53.
Definition emax : Z := 1024.

(** A Python [float] is a binary64 value. *)
Definition float : Type := spec_float.

(** The literals [0.0] and [1e9]. *)
Definition zero : float := S754_zero false.
Definition lit_1e9 : float := S754_finite false 8388608000000000 (-23).

(** [float(n)] before the overflow test: round to nearest, ties to even. *)
Definition of_int_rounded (n : Z) : float := binary_normalize prec emax n 0 false.

Definition is_infinite (f : float) : bool :=
  match f with S754_infinity _ => true | _ => false end.

Definition is_zero (f : float) : bool :=
  match f with S754_zero _ => true | _ => false end.

Definition is_nan (f : float) : bool :=
  match f with S754_nan => true | _ => false end.

Definition div : float -> float -> float := SFdiv prec emax.
Definition sub : float -> float -> float := SFsub prec emax.

(** [x > y], [x >= y] and [x <= y]. *)
Definition gt (x y : float) : bool := SFltb y x.
Definition ge (x y : float) : bool := SFleb y x.
Definition le (x y : float) : bool := SFleb x y.

(** The sign bit is clear and the value is a number: [+0.0], a positive
    finite value or [+inf]. *)
Definition positive_or_zero (f : float) : bool :=
  match f with
  | S754_zero false | S754_finite false _ _ | S754_infinity false => true
  | _ => false
  end.

End PyFloat.

Import PyFloat.

(** ** Exceptions and method bodies *)

(** The exceptions that can travel through this module.  In psutil,
    [ZombieProcess] is a subclass of [NoSuchProcess]. *)
Inductive exn : Type :=
| NoSuchProcess
| ZombieProcess
| AccessDenied
| OverflowError
| ZeroDivisionError
| OSError.

Inductive result (A : Type) : Type :=
| Ret (a : A)
| Raise (e : exn).
Arguments Ret {A} a.
Arguments Raise {A} e.

(** [except (psutil.NoSuchProcess, psutil.AccessDenied)] *)
Definition process_gone (e : exn) : bool :=
  match e with
  | NoSuchProcess | ZombieProcess | AccessDenied => true
  | _ => false
  end.

(** A method body runs over a mutable state [S] (the locals, or the object
    and standard output) and either returns or raises; what it wrote to the
    state before raising stays written. *)
Section Exec.
Context {S : Type}.

Definition exec (A : Type) : Type := S -> result A * S.

Definition ret {A} (a : A) : exec A := fun s => (Ret a, s).

Definition bind {A B} (c : exec A) (k : A -> exec B) : exec B :=
  fun s => match c s with
           | (Ret a, s') => k a s'
           | (Raise e, s') => (Raise e, s')
           end.

Definition lift {A} (r : result A) : exec A := fun s => (r, s).

Definition get : exec S := fun s => (Ret s, s).
Definition put (s : S) : exec unit := fun _ => (Ret tt, s).
Definition modify (f : S -> S) : exec unit := fun s => (Ret tt, f s).

(** [try: body  except <catches>: handler] *)
Definition try_except {A} (body : exec A) (catches : exn -> bool)
           (handler : exec A) : exec A :=
  fun s => match body s with
           | (Raise e, s') => if catches e then handler s' else (Raise e, s')
           | r => r
           end.

(** [for x in xs: body x] *)
Fixpoint for_each {A} (xs : list A) (body : A -> exec unit) : exec unit :=
  match xs with
  | [] => ret tt
  | x :: rest => bind (body x) (fun _ => for_each rest body)
  end.
End Exec.
Arguments exec : clear implicits.

Declare Scope exec_scope.
Delimit Scope exec_scope with exec.
Notation "x <- c ;; k" := (bind c (fun x => k))
  (at level 61, c at next level, right associativity) : exec_scope.
Notation "c ;; k" := (bind c (fun _ => k))
  (at level 61, right associativity) : exec_scope.
Local Open Scope exec_scope.

(** [n / y] for an [int] n and a [float] y: n is converted first, which
    raises [OverflowError] when it rounds out of the binary64 range. *)
Definition int_to_float (n : Z) : result float :=
  let f := of_int_rounded n in
  if is_infinite f then Raise OverflowError else Ret f.

Definition float_truediv (x y : float) : result float :=
  if is_zero y then Raise ZeroDivisionError else Ret (div x y).

Definition int_truediv_float (n : Z) (y : float) : result float :=
  match int_to_float n with
  | Ret x => float_truediv x y
  | Raise e => Raise e
  end.

(** ** psutil *)

Module Psutil.

(** The named tuple returned by [Process.memory_info()], in bytes. *)
Record pmem : Type := { rss : Z; vms : Z }.

(** A [Process] value records what the operating system answers through
    the handle while one method of the monitor runs: its memory, its
    creation time and its direct children, each of which may raise.  A
    child handle carries the answer given when that child is queried, so
    a child that exits between enumeration and query is a child whose
    [memory_info] raises. *)
Inductive Process : Type :=
| mkProcess (memory_info : result pmem)
            (create_time : result float)
            (child_processes : result (list Process)).

Definition memory_info (p : Process) : result pmem :=
  let '(mkProcess m _ _) := p in m.
Definition create_time (p : Process) : result float :=
  let '(mkProcess _ c _) := p in c.
Definition child_processes (p : Process) : result (list Process) :=
  let '(mkProcess _ _ k) := p in k.

(** Every process below [p], at any depth.  psutil walks the table of
    parent pids and drops the processes that vanish while it walks; the
    order in which it lists them is not modelled (the monitor adds
    integers, see [live_rss_permutation]). *)
Fixpoint descendants (p : Process) : list Process :=
  match child_processes p with
  | Ret kids => flat_map (fun c => c :: descendants c) kids
  | Raise _ => []
  end.

(** [p.children(recursive=...)] *)
Definition children (p : Process) (recursive : bool) : result (list Process) :=
  match child_processes p with
  | Ret kids => Ret (if recursive
                     then flat_map (fun c => c :: descendants c) kids
                     else kids)
  | Raise e => Raise e
  end.

(** [time.time()] and [psutil.virtual_memory().available] at one instant. *)
Record OS : Type := { time_time : float; virtual_memory_available : Z }.

End Psutil.

Import Psutil.

(** ** MemoryMonitor *)

(** [interval] is a float or an int. *)
Inductive number : Type :=
| Int (z : Z)
| Float (f : float).

(** The object.  [self.process] is the handle made once in [__init__]; what
    it answers changes with time, so each method below takes the answers
    current at its call as a [Process] argument. *)
Record MemoryMonitor : Type := {
  should_continue : bool;
  interval : number;
  max_total_rss : float
}.

(** The two lines the class prints, with the values that fill them. *)
Inductive line : Type :=
| Report (dt_seconds rss total_rss vms avail : float)
| Summary (max_total : float).

Inductive event : Type :=
| Print (l : line)
| Sleep (seconds : number).

(** What a method can change: the object and the output so far. *)
Record world : Type := { self : MemoryMonitor; stdout : list event }.

Definition get_self : exec world MemoryMonitor :=
  fun w => (Ret (self w), w).

Definition set_should_continue (b : bool) : exec world unit :=
  modify (fun w =>
    {| self := {| should_continue := b;
                  interval := interval (self w);
                  max_total_rss := max_total_rss (self w) |};
       stdout := stdout w |}).

Definition set_max_total_rss (v : float) : exec world unit :=
  modify (fun w =>
    {| self := {| should_continue := should_continue (self w);
                  interval := interval (self w);
                  max_total_rss := v |};
       stdout := stdout w |}).

Definition emit (e : event) : exec world unit :=
  modify (fun w => {| self := self w; stdout := stdout w ++ [e] |}).

Definition print (l : line) : exec world unit := emit (Print l).
Definition sleep (seconds : number) : exec world unit := emit (Sleep seconds).

(** [__init__(self, interval=30)] *)
Definition __init__ (interval : number) : MemoryMonitor :=
  {| should_continue := true; interval := interval; max_total_rss := zero |}.

Definition default_interval : number := Int 30.

(** [get_total_rss_gb(p)].  The state is the local [total_rss]. *)
Definition get_total_rss_gb_body (p : Process) : exec Z float :=
  try_except
    (mem <- lift (memory_info p) ;;
     put (rss mem) ;;
     try_except
       (kids <- lift (children p true) ;;
        for_each kids (fun child =>
          try_except
            (child_mem <- lift (memory_info child) ;;
             modify (fun total_rss => total_rss + rss child_mem))
            process_gone
            (ret tt)))
       process_gone
       (ret tt) ;;
     total_rss <- get ;;
     lift (int_truediv_float total_rss lit_1e9))
    process_gone
    (ret zero).

(** [total_rss] is unbound on entry; the body assigns it before reading. *)
Definition get_total_rss_gb (p : Process) : result float :=
  fst (get_total_rss_gb_body p 0).

(** [log(self, p)] *)
Definition log (os : OS) (p : Process) : exec world unit :=
  mem <- lift (memory_info p) ;;
  created <- lift (create_time p) ;;
  let dt := sub (time_time os) created in
  rss_gb <- lift (int_truediv_float (rss mem) lit_1e9) ;;
  vms_gb <- lift (int_truediv_float (vms mem) lit_1e9) ;;
  total_rss <- lift (get_total_rss_gb p) ;;
  me <- get_self ;;
  (if gt total_rss (max_total_rss me)
   then set_max_total_rss total_rss
   else ret tt) ;;
  avail <- lift (int_truediv_float (virtual_memory_available os) lit_1e9) ;;
  print (Report dt rss_gb total_rss vms_gb avail).

(** [stop(self)] *)
Definition stop (p : Process) : exec world unit :=
  set_should_continue false ;;
  try_except
    (final_total <- lift (get_total_rss_gb p) ;;
     me <- get_self ;;
     if gt final_total (max_total_rss me)
     then set_max_total_rss final_total
     else ret tt)
    process_gone
    (ret tt) ;;
  me <- get_self ;;
  print (Summary (max_total_rss me)).

(** One pass of the [while] loop of [_run], as the sampling thread meets
    it: whether the main thread is still alive at the test, whether the
    host thread has called [stop] since the previous pass (and what the
    handle answered to that call), and what the system answers to [log]. *)
Record tick : Type := {
  main_thread_is_alive : bool;
  host_stop : option Process;
  os : OS;
  answers : Process
}.

(** A call made by the host thread: its writes reach the shared object and
    the output, its exception (if any) stays in the host thread. *)
Definition in_host_thread (c : exec world unit) : exec world unit :=
  fun w => (Ret tt, snd (c w)).

Definition host_activity (t : tick) : exec world unit :=
  match host_stop t with
  | Some p => in_host_thread (stop p)
  | None => ret tt
  end.

(** The [while] loop of [_run].  It returns [true] when the loop is left
    (by its condition or by [break]) and [false] when the ticks given run
    out with the loop still going. *)
Fixpoint sampling_loop (ticks : list tick) : exec world bool :=
  match ticks with
  | [] => ret false
  | t :: rest =>
      host_activity t ;;
      if main_thread_is_alive t then
        me <- get_self ;;
        if negb (should_continue me) then ret true
        else
          log (os t) (answers t) ;;
          me <- get_self ;;
          sleep (interval me) ;;
          sampling_loop rest
      else ret true
  end.

Inductive run_status : Type :=
| Returned
| Looping.

(** [_run(self)] *)
Definition _run (ticks : list tick) : exec world run_status :=
  left_loop <- sampling_loop ticks ;;
  if left_loop then
    me <- get_self ;;
    (if gt (max_total_rss me) zero
     then print (Summary (max_total_rss me))
     else ret tt) ;;
    ret Returned
  else ret Looping.

(** A monitor that has printed nothing yet. *)
Definition fresh (m : MemoryMonitor) : world := {| self := m; stdout := [] |}.

(** ** Rendering of the printed values *)

Definition round_half_even (num den : Z) : Z :=
  let q := num / den in
  match (2 * (num mod den)) ?= den with
  | Lt => q
  | Gt => q + 1
  | Eq => if Z.even q then q else q + 1
  end.

Definition show_nat (n : Z) : string :=
  NilZero.string_of_uint (N.to_uint (Z.to_N n)).

Fixpoint zeros (n : nat) : string :=
  match n with
  | O => EmptyString
  | S k => ("0" ++ zeros k)%string
  end.

(** The digits of [n / 10^digits] with [digits] decimals. *)
Definition show_scaled (digits : nat) (n : Z) : string :=
  match digits with
  | O => show_nat n
  | S _ =>
      let unit := 10 ^ Z.of_nat digits in
      let frac := show_nat (n mod unit) in
      (show_nat (n / unit) ++ "." ++
       zeros (digits - String.length frac) ++ frac)%string
  end.

Definition show_sign (s : bool) : string :=
  if s then "-"%string else EmptyString.

(** The format specification [:.<digits>f]: the exact binary value,
    rounded to [digits] decimals, ties to even. *)
Definition format_fixed (digits : nat) (f : float) : string :=
  match f with
  | S754_nan => "nan"%string
  | S754_infinity s => (show_sign s ++ "inf")%string
  | S754_zero s => (show_sign s ++ show_scaled digits 0)%string
  | S754_finite s m e =>
      let n := Z.pos m * 10 ^ Z.of_nat digits in
      let scaled := if 0 <=? e then n * 2 ^ e
                    else round_half_even n (2 ^ (- e)) in
      (show_sign s ++ show_scaled digits scaled)%string
  end.

(** The text of a printed line; [show_timedelta] stands for
    [str(datetime.timedelta(seconds=...))]. *)
Definition render (show_timedelta : float -> string) (l : line) : string :=
  match l with
  | Report dt rss_gb total vms_gb avail =>
      ("MemoryMonitor Time: " ++ show_timedelta dt ++
       "   Physical mem: " ++ format_fixed 3 rss_gb ++ " GB   " ++
       "Total (with children): " ++ format_fixed 3 total ++ " GB   " ++
       "Virtual mem: " ++ format_fixed 3 vms_gb ++ " GB   " ++
       "Available mem: " ++ format_fixed 1 avail ++ " GB")%string
  | Summary max_total =>
      ("MemoryMonitor: Maximum total memory (including children): " ++
       format_fixed 3 max_total ++ " GB")%string
  end.

(** ** The peak update under two threads *)

(** [if v > self.max_total_rss: self.max_total_rss = v] is a load and a
    comparison, then (when the test holds) a store.  Nothing in the class
    holds a lock, so the other thread may run between the two. *)
Inductive update_pc : Type :=
| AtTest
| AtStore
| AtEnd.

Record updater : Type := { observed : float; pc : update_pc }.

Definition updater_step (u : updater) (peak : float) : updater * float :=
  match pc u with
  | AtTest =>
      if gt (observed u) peak
      then ({| observed := observed u; pc := AtStore |}, peak)
      else ({| observed := observed u; pc := AtEnd |}, peak)
  | AtStore => ({| observed := observed u; pc := AtEnd |}, observed u)
  | AtEnd => (u, peak)
  end.

Inductive thread : Type :=
| SamplingThread
| HostThread.

(** The shared attribute and the two updates in flight: the one in [log],
    run by the sampling thread, and the one in [stop], run by the host. *)
Record racing : Type := {
  shared_peak : float;
  in_log : updater;
  in_stop : updater
}.

Definition race_start (peak v_log v_stop : float) : racing :=
  {| shared_peak := peak;
     in_log := {| observed := v_log; pc := AtTest |};
     in_stop := {| observed := v_stop; pc := AtTest |} |}.

Definition race_step (who : thread) (c : racing) : racing :=
  match who with
  | SamplingThread =>
      let '(u, peak) := updater_step (in_log c) (shared_peak c) in
      {| shared_peak := peak; in_log := u; in_stop := in_stop c |}
  | HostThread =>
      let '(u, peak) := updater_step (in_stop c) (shared_peak c) in
      {| shared_peak := peak; in_log := in_log c; in_stop := u |}
  end.

Fixpoint race (schedule : list thread) (c : racing) : racing :=
  match schedule with
  | [] => c
  | who :: rest => race rest (race_step who c)
  end.

Definition at_end (u : updater) : bool :=
  match pc u with AtEnd => true | _ => false end.

Definition race_over (c : racing) : bool :=
  at_end (in_log c) && at_end (in_stop c).

(** The update run without interruption, as one thread alone runs it. *)
Definition update_peak (v peak : float) : float :=
  if gt v peak then v else peak.

(** ** Vocabulary of the properties *)

(** [s] is the sign bit of [f], and [f] is not a NaN. *)
Definition same_sign_number (s : bool) (f : float) : bool :=
  match f with
  | S754_zero s' | S754_finite s' _ _ | S754_infinity s' => Bool.eqb s s'
  | S754_nan => false
  end.

(** [1.0], and [1e9 / 2**30]: one billion bytes in binary gigabytes. *)
Definition one_gb : float := S754_finite false 4503599627370496 (-52).
Definition binary_gb_of_1e9 : float := div (of_int_rounded (10 ^ 9)) (of_int_rounded (2 ^ 30)).

Definition queryable (c : Process) : bool :=
  match memory_info c with Ret _ => true | Raise _ => false end.

Definition resident (c : Process) : Z :=
  match memory_info c with Ret m => rss m | Raise _ => 0 end.

(** Sum of the resident sizes of the processes of [cs] that answer. *)
Definition live_rss (cs : list Process) : Z :=
  fold_right Z.add 0 (map resident (filter queryable cs)).

(** The only way a query on [c] fails is that the process is gone or
    access to it is denied. *)
Definition fails_only_gone {A} (r : result A) : bool :=
  match r with Ret _ => true | Raise e => process_gone e end.

(** Every query [get_total_rss_gb] makes below the root answers or fails
    the anticipated way. *)
Definition tree_fails_only_gone (p : Process) : bool :=
  match children p true with
  | Ret cs => forallb (fun c => fails_only_gone (memory_info c)) cs
  | Raise e => process_gone e
  end.

(** psutil reports sizes as unsigned 64-bit byte counts. *)
Definition size_in_range (n : Z) : bool := (0 <=? n) && (n <? 2 ^ 64).

Definition sizes_in_range (c : Process) : bool :=
  match memory_info c with
  | Ret m => size_in_range (rss m) && size_in_range (vms m)
  | Raise _ => true
  end.

(** A handle as psutil can produce it: sizes in range, on it and on the
    processes it enumerates, and fewer than 2^32 of those. *)
Definition plausible (p : Process) : bool :=
  sizes_in_range p &&
  match children p true with
  | Ret cs => forallb sizes_in_range cs && (Z.of_nat (List.length cs) <? 2 ^ 32)
  | Raise _ => true
  end.

Definition plausible_os (o : OS) : bool :=
  size_in_range (virtual_memory_available o).

(** [c] is a child of [p], or a child of a child, and so on. *)
Inductive below : Process -> Process -> Prop :=
| below_child p kids c :
    child_processes p = Ret kids -> In c kids -> below p c
| below_deeper p kids c d :
    child_processes p = Ret kids -> In c kids -> below c d -> below p d.

(** The calls that write [max_total_rss] over the life of a monitor. *)
Inductive call : Type :=
| CallLog (o : OS) (p : Process)
| CallStop (p : Process).

Definition perform (c : call) : exec world unit :=
  match c with
  | CallLog o p => log o p
  | CallStop p => stop p
  end.

Definition handle_of (c : call) : Process :=
  match c with CallLog _ p | CallStop p => p end.

(** The calls run one after the other on the same object; a call that
    raises leaves the object as it was when it raised. *)
Fixpoint lifetime (cs : list call) (w : world) : world :=
  match cs with
  | [] => w
  | c :: rest => lifetime rest (snd (perform c w))
  end.

(** The total a call observes, when it gets as far as observing one:
    [log] first reads the target's own memory and creation time. *)
Definition sample_of (c : call) : option float :=
  match c with
  | CallLog _ p =>
      match memory_info p, create_time p with
      | Ret m, Ret _ =>
          match int_truediv_float (rss m) lit_1e9,
                int_truediv_float (vms m) lit_1e9,
                get_total_rss_gb p with
          | Ret _, Ret _, Ret v => Some v
          | _, _, _ => None
          end
      | _, _ => None
      end
  | CallStop p =>
      match get_total_rss_gb p with
      | Ret v => Some v
      | Raise _ => None
      end
  end.

Fixpoint samples (cs : list call) : list float :=
  match cs with
  | [] => []
  | c :: rest =>
      match sample_of c with
      | Some v => v :: samples rest
      | None => samples rest
      end
  end.

Definition peak (w : world) : float := max_total_rss (self w).

(** The world once a sample [v] has been compared with the stored peak. *)
Definition sampled (v : float) (w : world) : world :=
  {| self := {| should_continue := should_continue (self w);
                interval := interval (self w);
                max_total_rss := update_peak v (peak w) |};
     stdout := stdout w |}.

(** The world once [stop] has cleared the flag and nothing else. *)
Definition flagged (w : world) : world :=
  {| self := {| should_continue := false;
                interval := interval (self w);
                max_total_rss := peak w |};
     stdout := stdout w |}.

(** The world [stop] leaves when its sample is [v]. *)
Definition stopped (v : float) (w : world) : world :=
  {| self := {| should_continue := false;
                interval := interval (self w);
                max_total_rss := update_peak v (peak w) |};
     stdout := stdout w ++ [Print (Summary (update_peak v (peak w)))] |}.

(** The world [_run] leaves once its loop has been left in world [w]. *)
Definition after_loop (w : world) : world :=
  {| self := self w;
     stdout := stdout w ++
               (if gt (peak w) zero then [Print (Summary (peak w))] else []) |}.

(** What the specification says of the end of [_run], at a tick where the
    loop is left from world [w]: a last sample of the tree is taken, the
    peak is raised to it if it is larger, and a summary of the peak is
    printed. *)
Definition final_sample_and_summary (t : tick) (w w' : world) : Prop :=
  exists v,
    get_total_rss_gb (answers t) = Ret v /\
    peak w' = update_peak v (peak w) /\
    stdout w' = stdout w ++ [Print (Summary (peak w'))].

(** What the specification says of two concurrent peak updates: whatever
    the schedule, once both are over the stored peak is at least each of
    the two observed values. *)
Definition no_lost_update (peak0 v_log v_stop : float) : Prop :=
  forall schedule,
    let c := race schedule (race_start peak0 v_log v_stop) in
    race_over c = true ->
    le v_log (shared_peak c) = true /\ le v_stop (shared_peak c) = true.

(** The bytes [get_total_rss_gb] adds up: the root and the enumerated
    processes that answer. *)
Definition total_bytes (p : Process) : Z :=
  match memory_info p with
  | Ret m => rss m + match children p true with
                     | Ret cs => live_rss cs
                     | Raise _ => 0
                     end
  | Raise _ => 0
  end.

Definition two_gb : float := S754_finite false 4503599627370496 (-51).

(** Every failure [get_total_rss_gb] meets on [p] is an anticipated one. *)
Definition anticipated (p : Process) : bool :=
  match memory_info p with
  | Ret _ => tree_fails_only_gone p
  | Raise e => process_gone e
  end.

(** The schedules in which one update is over before the other starts. *)
Definition log_then_stop (a b : nat) : list thread :=
  List.repeat SamplingThread (2 + a) ++ List.repeat HostThread (2 + b).

Definition stop_then_log (a b : nat) : list thread :=
  List.repeat HostThread (2 + a) ++ List.repeat SamplingThread (2 + b).

(** The handle answers that can be sampled while the loop runs over
    [ticks]: those given to [log] and those given to [stop]. *)
Definition handles (ticks : list tick) : list Process :=
  flat_map (fun t => answers t :: match host_stop t with
                                  | Some p => [p]
                                  | None => []
                                  end) ticks.

(** ** Sample inputs *)

Definition sample_os : OS :=
  {| time_time := of_int_rounded 1700000100;
     virtual_memory_available := 8 * 10 ^ 9 |}.

Definition started : result float := Ret (of_int_rounded 1700000000).

(** A process of [r] resident bytes with the given children. *)
Definition proc (r : Z) (kids : list Process) : Process :=
  mkProcess (Ret {| rss := r; vms := 2 * r |}) started (Ret kids).

(** A process that has exited by the time it is queried. *)
Definition exited : Process :=
  mkProcess (Raise NoSuchProcess) started (Raise NoSuchProcess).

(** A process alone, of one and of two billion bytes. *)
Definition alone_1e9 : Process := proc (10 ^ 9) [].
Definition alone_2e9 : Process := proc (2 * 10 ^ 9) [].

(** A parent of 1e9 bytes with a child of 5e8 bytes that has a child of
    its own of 5e8 bytes, and a second child that has exited. *)
Definition family : Process :=
  proc (10 ^ 9) [proc (5 * 10 ^ 8) [proc (5 * 10 ^ 8) []]; exited].

(** The main thread has ended; the tree holds 1e9 bytes at that moment. *)
Definition main_thread_ended : tick :=
  {| main_thread_is_alive := false; host_stop := None;
     os := sample_os; answers := alone_1e9 |}.

(** An ordinary pass: main thread alive, no call to [stop]. *)
Definition pass (p : Process) : tick :=
  {| main_thread_is_alive := true; host_stop := None;
     os := sample_os; answers := p |}.

(** A pass before which the host has called [stop]. *)
Definition pass_after_stop (p : Process) : tick :=
  {| main_thread_is_alive := true; host_stop := Some p;
     os := sample_os; answers := p |}.

Definition new_monitor : world := fresh (__init__ default_interval).


(** ** The rest of the class *)


(** Bytes as gigabytes. *)
Definition gb (n : Z) : float := div (of_int_rounded n) lit_1e9.




Definition is_stop (c : call) : bool :=
  match c with CallStop _ => true | CallLog _ _ => false end.

(** A process whose memory query fails with [OSError]. *)
Definition unreadable_child : Process :=
  mkProcess (Raise OSError) started (Ret []).


(** From [w] to [w']: the interval is the same, the flag has not been set
    again, and a peak that was a number is a number no smaller. *)
Definition carries_on (w w' : world) : Prop :=
  interval (self w') = interval (self w) /\
  (should_continue (self w') = true -> should_continue (self w) = true) /\
  (is_nan (peak w) = false ->
   is_nan (peak w') = false /\ le (peak w) (peak w') = true).

(** Invariants of two racing updates started from peak [pk] with samples
    [v_log] and [v_stop].  In any schedule: the shared peak is [pk] or a
    sample not below [pk], and an update about to store holds such a
    sample. *)
Definition race_bounded (pk v_log v_stop : float) (c : racing) : Prop :=
  observed (in_log c) = v_log /\ observed (in_stop c) = v_stop /\
  (shared_peak c = pk \/
   (shared_peak c = v_log /\ le pk v_log = true) \/
   (shared_peak c = v_stop /\ le pk v_stop = true)) /\
  (pc (in_log c) = AtStore -> le pk v_log = true) /\
  (pc (in_stop c) = AtStore -> le pk v_stop = true).

(** When the sample of [stop] is not above [pk], [stop] never stores and
    the shared peak follows the update of [log] alone. *)
Definition log_alone_stores (pk v_log v_stop : float) (c : racing) : Prop :=
  observed (in_log c) = v_log /\ observed (in_stop c) = v_stop /\
  pc (in_stop c) <> AtStore /\
  match pc (in_log c) with
  | AtTest => shared_peak c = pk
  | AtStore => shared_peak c = pk /\ gt v_log pk = true
  | AtEnd => shared_peak c = update_peak v_log pk
  end.

(** The same with the two threads exchanged. *)
Definition stop_alone_stores (pk v_log v_stop : float) (c : racing) : Prop :=
  observed (in_log c) = v_log /\ observed (in_stop c) = v_stop /\
  pc (in_log c) <> AtStore /\
  match pc (in_stop c) with
  | AtTest => shared_peak c = pk
  | AtStore => shared_peak c = pk /\ gt v_stop pk = true
  | AtEnd => shared_peak c = update_peak v_stop pk
  end.

(** * Properties *)

(** ** Ordering of binary64 values *)

Ltac order_cases :=
  repeat match goal with
         | H : context [Z.compare ?a ?b] |- _ => destruct (Z.compare_spec a b)
         | |- context [Z.compare ?a ?b] => destruct (Z.compare_spec a b)
         | H : context [Pos.compare_cont Eq ?a ?b] |- _ =>
             change (Pos.compare_cont Eq a b) with (Pos.compare a b) in H;
             destruct (Pos.compare_spec a b)
         | |- context [Pos.compare_cont Eq ?a ?b] =>
             change (Pos.compare_cont Eq a b) with (Pos.compare a b);
             destruct (Pos.compare_spec a b)
         end;
  simpl in *; subst; try discriminate; try reflexivity; try lia.

Lemma le_refl (x : float) : is_nan x = false -> le x x = true.
Proof.
  unfold le, SFleb. destruct x as [s|s| |s m e]; simpl; try discriminate; intros _.
  - reflexivity.
  - destruct s; reflexivity.
  - destruct s; order_cases.
Qed.

Lemma gt_le (x y : float) : gt x y = true -> le y x = true.
Proof. unfold gt, le, SFltb, SFleb. destruct (SFcompare y x) as [[]|]; easy. Qed.

Lemma not_gt_le (x y : float) :
  is_nan x = false -> is_nan y = false -> gt x y = false -> le x y = true.
Proof.
  unfold gt, le, SFltb, SFleb.
  destruct x as [s|s| |s m e], y as [s'|s'| |s' m' e']; simpl; try discriminate;
    intros _ _; try destruct s; try destruct s'; simpl; try discriminate; try reflexivity;
    order_cases.
Qed.

Lemma le_trans (x y z : float) :
  le x y = true -> le y z = true -> le x z = true.
Proof.
  unfold le, SFleb.
  destruct x as [s|s| |s m e], y as [s'|s'| |s' m' e'], z as [s''|s''| |s'' m'' e''];
    simpl; try discriminate; try reflexivity;
    try destruct s; try destruct s'; try destruct s''; simpl;
    try discriminate; try reflexivity; order_cases.
Qed.

(** ** binary64 rounding *)

(** The mantissa stays non-negative and below its bound through the
    right shifts of the rounding, so a rounded non-negative value is a
    number of the expected sign, and one far below the largest double is
    not an infinity. *)
Lemma iter_pos_invariant {A} (f : A -> A) (P : A -> Prop) :
  (forall x, P x -> P (f x)) -> forall n x, P x -> P (iter_pos f n x).
Proof. intros Hf. induction n; simpl; intros; auto. Qed.

Lemma shr_1_bounds (B : Z) (mrs : shr_record) :
  0 <= shr_m mrs <= B -> 0 <= shr_m (shr_1 mrs) <= B.
Proof.
  destruct mrs as [m r s]. simpl. destruct m as [|[p|p|]|p]; simpl; lia.
Qed.

Lemma shr_record_of_loc_m (m : Z) (l : location) : shr_m (shr_record_of_loc m l) = m.
Proof. destruct l as [|[]]; reflexivity. Qed.

Lemma shr_fexp_bounds (m e : Z) (l : location) :
  0 <= m ->
  0 <= shr_m (fst (shr_fexp prec emax m e l)) <= m /\
  snd (shr_fexp prec emax m e l) <= Z.max e (fexp prec emax (Zdigits2 m + e)).
Proof.
  intros Hm. unfold shr_fexp, shr.
  destruct (fexp prec emax (Zdigits2 m + e) - e) as [|n|n] eqn:Hn; simpl.
  - rewrite shr_record_of_loc_m. lia.
  - split; [|lia].
    apply (iter_pos_invariant shr_1 (fun x => 0 <= shr_m x <= m)).
    + intro x. apply shr_1_bounds.
    + rewrite shr_record_of_loc_m. lia.
  - rewrite shr_record_of_loc_m. lia.
Qed.

Lemma round_nearest_even_bounds (m : Z) (l : location) :
  m <= round_nearest_even m l <= m + 1.
Proof. destruct l as [|[]]; simpl; try destruct (Z.even m); lia. Qed.

Lemma digits2_pos_lower (p : positive) : 2 ^ (Z.pos (digits2_pos p) - 1) <= Z.pos p.
Proof.
  induction p as [p IH|p IH|]; simpl digits2_pos.
  - rewrite Pos2Z.inj_succ. replace (Z.succ (Z.pos (digits2_pos p)) - 1) with (Z.succ (Z.pos (digits2_pos p) - 1)) by lia.
    rewrite Z.pow_succ_r by lia. lia.
  - rewrite Pos2Z.inj_succ. replace (Z.succ (Z.pos (digits2_pos p)) - 1) with (Z.succ (Z.pos (digits2_pos p) - 1)) by lia.
    rewrite Z.pow_succ_r by lia. lia.
  - simpl. lia.
Qed.

Lemma Zdigits2_le (m k : Z) : 0 <= k -> 0 <= m < 2 ^ k -> Zdigits2 m <= k.
Proof.
  intros Hk [Hm Hlt]. destruct m as [|p|p]; simpl; try lia.
  pose proof (digits2_pos_lower p) as Hlow.
  assert (H : 2 ^ (Z.pos (digits2_pos p) - 1) < 2 ^ k) by lia.
  apply Z.pow_lt_mono_r_iff in H; lia.
Qed.

Lemma binary_round_aux_sign (s : bool) (m e : Z) (l : location) :
  0 <= m -> same_sign_number s (binary_round_aux prec emax s m e l) = true.
Proof.
  intros Hm. unfold binary_round_aux.
  destruct (shr_fexp prec emax m e l) as [mrs1 e1] eqn:H1.
  pose proof (shr_fexp_bounds m e l Hm) as [B1 _]. rewrite H1 in B1. simpl in B1.
  pose proof (round_nearest_even_bounds (shr_m mrs1) (loc_of_shr_record mrs1)) as R.
  set (m1 := round_nearest_even (shr_m mrs1) (loc_of_shr_record mrs1)) in *.
  destruct (shr_fexp prec emax m1 e1 loc_Exact) as [mrs2 e2] eqn:H2.
  assert (Hm1 : 0 <= m1) by lia.
  pose proof (shr_fexp_bounds m1 e1 loc_Exact Hm1) as [B2 _]. rewrite H2 in B2. simpl in B2.
  destruct (shr_m mrs2) as [|q|q]; simpl.
  - apply Bool.eqb_reflx.
  - destruct (e2 <=? _); simpl; apply Bool.eqb_reflx.
  - lia.
Qed.

Lemma binary_round_aux_in_range (s : bool) (m e : Z) (l : location) (D : Z) :
  0 <= D -> 0 <= m < 2 ^ D -> e <= 0 -> 2 * D <= 971 ->
  is_infinite (binary_round_aux prec emax s m e l) = false.
Proof.
  intros HD [Hm Hlt] He Hsmall. unfold binary_round_aux.
  destruct (shr_fexp prec emax m e l) as [mrs1 e1] eqn:H1.
  pose proof (shr_fexp_bounds m e l Hm) as [B1 E1]. rewrite H1 in B1, E1. simpl in B1, E1.
  pose proof (round_nearest_even_bounds (shr_m mrs1) (loc_of_shr_record mrs1)) as R.
  set (m1 := round_nearest_even (shr_m mrs1) (loc_of_shr_record mrs1)) in *.
  destruct (shr_fexp prec emax m1 e1 loc_Exact) as [mrs2 e2] eqn:H2.
  assert (Hm1 : 0 <= m1) by lia.
  pose proof (shr_fexp_bounds m1 e1 loc_Exact Hm1) as [B2 E2]. rewrite H2 in B2, E2. simpl in B2, E2.
  pose proof (Zdigits2_le m D HD (conj Hm Hlt)) as Dm.
  assert (Dm1 : Zdigits2 m1 <= D + 1).
  { apply Zdigits2_le; [lia|]. split; [lia|]. rewrite Z.pow_add_r by lia. lia. }
  unfold fexp, SpecFloat.emin, prec, emax in *.
  destruct (shr_m mrs2) as [|q|q]; simpl; try reflexivity.
  destruct (e2 <=? _) eqn:Hle; simpl; try reflexivity.
  apply Z.leb_gt in Hle. lia.
Qed.

Lemma iter_xO_value (m d : positive) : Z.pos (Pos.iter xO m d) = Z.pos m * 2 ^ Z.pos d.
Proof.
  induction d as [|d IH] using Pos.peano_ind.
  - simpl. lia.
  - rewrite Pos.iter_succ, Pos2Z.inj_xO, IH, Pos2Z.inj_succ, Z.pow_succ_r by lia. lia.
Qed.

Lemma binary_round_sign (s : bool) (m : positive) (e : Z) :
  same_sign_number s (binary_round prec emax s m e) = true.
Proof.
  unfold binary_round. destruct (shl_align m e _) as [mz ez].
  apply binary_round_aux_sign. lia.
Qed.

Lemma binary_round_in_range (s : bool) (m : positive) :
  Z.pos m < 2 ^ 128 -> is_infinite (binary_round prec emax s m 0) = false.
Proof.
  intros Hm. unfold binary_round, shl_align.
  assert (Hf : - 52 <= fexp prec emax (Z.pos (digits2_pos m) + 0)).
  { unfold fexp, SpecFloat.emin, prec, emax. lia. }
  destruct (fexp prec emax (Z.pos (digits2_pos m) + 0) - 0) as [|d|d] eqn:Hd.
  - apply (binary_round_aux_in_range s _ 0 _ 128); lia.
  - apply (binary_round_aux_in_range s _ 0 _ 128); lia.
  - apply (binary_round_aux_in_range s _ _ _ 180); try lia.
    rewrite iter_xO_value. split; [lia|].
    assert (Hd52 : Z.pos d <= 52) by lia.
    assert (H2 : 2 ^ Z.pos d <= 2 ^ 52) by (apply Z.pow_le_mono_r; lia).
    assert (H3 : Z.pos m * 2 ^ Z.pos d <= Z.pos m * 2 ^ 52)
      by (apply Z.mul_le_mono_nonneg_l; lia).
    assert (H4 : Z.pos m * 2 ^ 52 < 2 ^ 128 * 2 ^ 52)
      by (apply Z.mul_lt_mono_pos_r; lia).
    replace (2 ^ 180) with (2 ^ 128 * 2 ^ 52) by (rewrite <- Z.pow_add_r by lia; reflexivity).
    lia.
Qed.

Lemma of_int_rounded_sign (n : Z) : same_sign_number (n <? 0) (of_int_rounded n) = true.
Proof.
  destruct n as [|m|m]; simpl; [reflexivity| |]; apply binary_round_sign.
Qed.

Lemma of_int_rounded_in_range (n : Z) :
  - 2 ^ 128 < n < 2 ^ 128 -> is_infinite (of_int_rounded n) = false.
Proof.
  intros Hn. destruct n as [|m|m]; simpl; [reflexivity| |];
    apply binary_round_in_range; lia.
Qed.

Lemma int_to_float_in_range (n : Z) :
  - 2 ^ 128 < n < 2 ^ 128 -> int_to_float n = Ret (of_int_rounded n).
Proof.
  intros Hn. unfold int_to_float. now rewrite of_int_rounded_in_range.
Qed.

Lemma div_1e9_sign (s : bool) (x : float) :
  same_sign_number s x = true -> same_sign_number s (div x lit_1e9) = true.
Proof.
  destruct x as [sx|sx| |sx mx ex]; simpl; try discriminate; intros Hs.
  - now rewrite xorb_false_r.
  - now rewrite xorb_false_r.
  - unfold SFdiv_core_binary.
    set (m' := match _ with Z0 => _ | Z.pos _ => _ | Z.neg _ => _ end).
    assert (Hm' : 0 <= m').
    { subst m'. destruct (_ - _ - _) as [|k|k]; try lia. apply Z.shiftl_nonneg. lia. }
    pose proof (Z.div_pos m' 8388608000000000 Hm' ltac:(lia)) as Hq.
    unfold Z.div in Hq.
    destruct (Z.div_eucl m' 8388608000000000) as [q r].
    rewrite xorb_false_r.
    pose proof (binary_round_aux_sign sx q
      (Z.min (fexp prec emax (Zdigits2 (Z.pos mx) + ex - (Zdigits2 8388608000000000 + -23))) (ex - -23))
      (new_location 8388608000000000 r) Hq) as H.
    destruct (binary_round_aux _ _ _ _ _ _); simpl in *; try discriminate;
      apply Bool.eqb_prop in H; subst; exact Hs.
Qed.

Lemma positive_or_zero_sign (f : float) :
  positive_or_zero f = same_sign_number false f.
Proof. destruct f as [[]|[]| |[] m e]; reflexivity. Qed.

Lemma same_sign_not_nan (s : bool) (f : float) :
  same_sign_number s f = true -> is_nan f = false.
Proof. destruct f; simpl; congruence. Qed.

Lemma positive_or_zero_ge (f : float) : positive_or_zero f = true -> ge f zero = true.
Proof. destruct f as [[]|[]| |[] m e]; simpl; try discriminate; reflexivity. Qed.

(** A total that is not above the stored [0.0] is [0.0] itself. *)
Lemma positive_or_zero_not_gt (f : float) :
  positive_or_zero f = true -> gt f zero = false -> f = zero.
Proof. destruct f as [[]|[]| |[] m e]; simpl; try discriminate; reflexivity. Qed.

(** ** Division by [1e9] *)

Lemma int_truediv_float_escapes (n : Z) (y : float) (e : exn) :
  int_truediv_float n y = Raise e -> process_gone e = false.
Proof.
  unfold int_truediv_float, int_to_float, float_truediv.
  destruct (is_infinite _); [intros [= <-]; reflexivity|].
  destruct (is_zero y); [intros [= <-]; reflexivity|discriminate].
Qed.

Lemma int_truediv_float_value (n : Z) (v : float) :
  int_truediv_float n lit_1e9 = Ret v -> v = div (of_int_rounded n) lit_1e9.
Proof.
  unfold int_truediv_float, int_to_float, float_truediv.
  destruct (is_infinite _); [discriminate|]. simpl. now intros [= <-].
Qed.

Lemma int_truediv_float_1e9 (n : Z) :
  - 2 ^ 128 < n < 2 ^ 128 ->
  int_truediv_float n lit_1e9 = Ret (div (of_int_rounded n) lit_1e9).
Proof.
  intros Hn. unfold int_truediv_float. now rewrite int_to_float_in_range.
Qed.

Lemma gb_sign (n : Z) :
  same_sign_number (n <? 0) (div (of_int_rounded n) lit_1e9) = true.
Proof. apply div_1e9_sign, of_int_rounded_sign. Qed.

Lemma gb_positive_or_zero (n : Z) :
  0 <= n -> positive_or_zero (div (of_int_rounded n) lit_1e9) = true.
Proof.
  intros Hn. rewrite positive_or_zero_sign.
  pose proof (gb_sign n) as H. now replace (n <? 0) with false in H by lia.
Qed.

(** ** The aggregator *)

Lemma live_rss_cons (c : Process) (cs : list Process) :
  live_rss (c :: cs) = (if queryable c then resident c else 0) + live_rss cs.
Proof. unfold live_rss. simpl. destruct (queryable c); reflexivity. Qed.

Lemma live_rss_permutation (cs cs' : list Process) :
  Permutation cs cs' -> live_rss cs = live_rss cs'.
Proof.
  induction 1 as [|c cs cs' _ IH|c c' cs|cs1 cs2 cs3 _ IH1 _ IH2].
  - reflexivity.
  - rewrite !live_rss_cons. now rewrite IH.
  - rewrite !live_rss_cons. lia.
  - now rewrite IH1.
Qed.

Lemma for_each_cons {S A : Type} (x : A) (xs : list A) (body : A -> exec S unit) (s : S) :
  for_each (x :: xs) body s =
  match body x s with
  | (Ret _, s') => for_each xs body s'
  | (Raise e, s') => (Raise e, s')
  end.
Proof. reflexivity. Qed.

(** One pass of the loop: [try: ... total_rss += child_mem.rss
    except (NoSuchProcess, AccessDenied): continue]. *)
Lemma child_step (c : Process) (total_rss : Z) :
  try_except
    (child_mem <- lift (memory_info c) ;;
     modify (fun total_rss => total_rss + rss child_mem))
    process_gone
    (ret tt) total_rss =
  match memory_info c with
  | Ret m => (Ret tt, total_rss + rss m)
  | Raise e => if process_gone e then (Ret tt, total_rss) else (Raise e, total_rss)
  end.
Proof.
  unfold try_except, bind, lift, modify, ret.
  destruct (memory_info c) as [m|e]; [reflexivity|].
  destruct (process_gone e); reflexivity.
Qed.

(** The [for] loop over the enumerated processes: either every query
    answers or fails the anticipated way, and the loop ends having added
    the sizes of those that answered; or some query raises something else,
    which leaves the loop. *)
Lemma children_loop (cs : list Process) (total_rss : Z) :
  let loop :=
    for_each cs (fun child =>
      try_except
        (child_mem <- lift (memory_info child) ;;
         modify (fun total_rss => total_rss + rss child_mem))
        process_gone
        (ret tt)) in
  (forallb (fun c => fails_only_gone (memory_info c)) cs = true /\
   loop total_rss = (Ret tt, total_rss + live_rss cs)) \/
  (forallb (fun c => fails_only_gone (memory_info c)) cs = false /\
   exists e t, loop total_rss = (Raise e, t) /\ process_gone e = false).
Proof.
  cbv zeta. revert total_rss.
  induction cs as [|c cs IH]; intros total_rss.
  - left. split; [reflexivity|]. unfold live_rss. simpl. unfold ret. f_equal. lia.
  - rewrite for_each_cons. cbv beta. rewrite child_step, live_rss_cons.
    simpl forallb. unfold queryable, resident.
    destruct (memory_info c) as [m|e] eqn:Hc; simpl fails_only_gone.
    + destruct (IH (total_rss + rss m)) as [[Hall Hrun]|[Hall (e & t & Hrun & He)]].
      * left. split; [exact Hall|]. rewrite Hrun. f_equal. lia.
      * right. split; [exact Hall|]. exists e, t. split; [exact Hrun|exact He].
    + destruct (process_gone e) eqn:He.
      * destruct (IH total_rss) as [[Hall Hrun]|[Hall (e' & t & Hrun & He')]].
        -- left. split; [exact Hall|]. rewrite Hrun. f_equal.
        -- right. split; [exact Hall|]. exists e', t. split; [exact Hrun|exact He'].
      * right. split; [reflexivity|]. exists e, total_rss. now split.
Qed.

(** [get_total_rss_gb] with its three [try] blocks spelled out. *)
Lemma get_total_rss_gb_body_unfold (p : Process) (s : Z) :
  get_total_rss_gb_body p s =
  match memory_info p with
  | Raise e => if process_gone e then (Ret zero, s) else (Raise e, s)
  | Ret m =>
      let inner :=
        match children p true with
        | Raise e => if process_gone e then (Ret tt, rss m) else (Raise e, rss m)
        | Ret cs =>
            match for_each cs (fun child =>
                    try_except
                      (child_mem <- lift (memory_info child) ;;
                       modify (fun total_rss => total_rss + rss child_mem))
                      process_gone
                      (ret tt)) (rss m) with
            | (Raise e, t) => if process_gone e then (Ret tt, t) else (Raise e, t)
            | r => r
            end
        end in
      match inner with
      | (Ret _, t) =>
          match int_truediv_float t lit_1e9 with
          | Ret v => (Ret v, t)
          | Raise e => if process_gone e then (Ret zero, t) else (Raise e, t)
          end
      | (Raise e, t) => if process_gone e then (Ret zero, t) else (Raise e, t)
      end
  end.
Proof.
  unfold get_total_rss_gb_body.
  unfold try_except at 1, bind at 1, lift at 1.
  destruct (memory_info p) as [m|e]; [|destruct (process_gone e); reflexivity].
  unfold bind at 1, put at 1, bind at 1, try_except at 1, bind at 1, lift at 1.
  cbv zeta.
  destruct (children p true) as [cs|e].
  - destruct (for_each cs _ (rss m)) as [[[]|e] t].
    + unfold bind, get, lift. destruct (int_truediv_float t lit_1e9); reflexivity.
    + destruct (process_gone e) eqn:He.
      * unfold ret at 1, bind, get, lift. destruct (int_truediv_float t lit_1e9); reflexivity.
      * rewrite He. reflexivity.
  - destruct (process_gone e) eqn:He.
    + unfold ret at 1, bind, get, lift. destruct (int_truediv_float (rss m) lit_1e9); reflexivity.
    + rewrite He. reflexivity.
Qed.

Lemma get_total_rss_gb_cases (p : Process) :
  (exists e, memory_info p = Raise e /\ process_gone e = true /\
             get_total_rss_gb p = Ret zero) \/
  (exists e, process_gone e = false /\ get_total_rss_gb p = Raise e) \/
  (exists m, memory_info p = Ret m /\ tree_fails_only_gone p = true /\
             get_total_rss_gb p = int_truediv_float (total_bytes p) lit_1e9).
Proof.
  unfold get_total_rss_gb. rewrite get_total_rss_gb_body_unfold.
  unfold total_bytes, tree_fails_only_gone.
  destruct (memory_info p) as [m|e] eqn:Hm.
  - cbv zeta. destruct (children p true) as [cs|e] eqn:Hc.
    + destruct (children_loop cs (rss m)) as [[Hall Hrun]|[Hall (e & t & Hrun & He)]];
        cbv zeta in Hrun; rewrite Hrun.
      * destruct (int_truediv_float (rss m + live_rss cs) lit_1e9) as [v|e] eqn:Hd.
        -- right. right. exists m. now repeat split.
        -- right. right. exists m. rewrite (int_truediv_float_escapes _ _ _ Hd). now repeat split.
      * rewrite !He. right. left. exists e. now split.
    + destruct (process_gone e) eqn:He.
      * rewrite Z.add_0_r.
        destruct (int_truediv_float (rss m) lit_1e9) as [v|e'] eqn:Hd.
        -- right. right. exists m. now repeat split.
        -- right. right. exists m. rewrite (int_truediv_float_escapes _ _ _ Hd). now repeat split.
      * rewrite !He. right. left. exists e. now split.
  - destruct (process_gone e) eqn:He.
    + left. exists e. now repeat split.
    + right. left. exists e. now split.
Qed.

Lemma live_rss_bounds (cs : list Process) :
  forallb sizes_in_range cs = true ->
  0 <= live_rss cs <= Z.of_nat (List.length cs) * 2 ^ 64.
Proof.
  induction cs as [|c cs IH]; [unfold live_rss; simpl; lia|].
  simpl forallb. intros [Hc Hcs]%andb_prop. specialize (IH Hcs).
  rewrite live_rss_cons. cbn [List.length]. rewrite Nat2Z.inj_succ.
  unfold sizes_in_range, size_in_range, queryable, resident in *.
  destruct (memory_info c) as [m|e]; [|lia].
  apply andb_prop in Hc as [[H1 H2]%andb_prop _]. lia.
Qed.

Lemma plausible_total_bytes (p : Process) :
  plausible p = true -> 0 <= total_bytes p < 2 ^ 128.
Proof.
  unfold plausible, total_bytes, sizes_in_range, size_in_range.
  intros [Hp Hcs]%andb_prop.
  destruct (memory_info p) as [m|e]; [|lia].
  apply andb_prop in Hp as [[H1 H2]%andb_prop _].
  destruct (children p true) as [cs|e]; [|lia].
  apply andb_prop in Hcs as [Hsz Hlen].
  pose proof (live_rss_bounds cs Hsz) as Hl.
  assert (Hn : Z.of_nat (List.length cs) * 2 ^ 64 <= 2 ^ 32 * 2 ^ 64)
    by (apply Z.mul_le_mono_nonneg_r; lia).
  change (2 ^ 32 * 2 ^ 64) with (2 ^ 96) in Hn. lia.
Qed.

(** No process-gone or access-denied error leaves [get_total_rss_gb]. *)
Lemma get_total_rss_gb_escapes (p : Process) (e : exn) :
  get_total_rss_gb p = Raise e -> process_gone e = false.
Proof.
  destruct (get_total_rss_gb_cases p)
    as [(e' & _ & _ & H)|[(e' & He & H)|(m & _ & _ & H)]]; rewrite H.
  - discriminate.
  - now intros [= <-].
  - apply int_truediv_float_escapes.
Qed.

(** What it returns is [0.0] or the bytes added up, divided by [1e9]. *)
Lemma get_total_rss_gb_value (p : Process) (v : float) :
  get_total_rss_gb p = Ret v ->
  v = zero \/ v = div (of_int_rounded (total_bytes p)) lit_1e9.
Proof.
  destruct (get_total_rss_gb_cases p)
    as [(e' & _ & _ & H)|[(e' & He & H)|(m & _ & _ & H)]]; rewrite H.
  - intros [= <-]. now left.
  - discriminate.
  - intros Hv. right. now apply int_truediv_float_value.
Qed.

Lemma get_total_rss_gb_not_nan (p : Process) (v : float) :
  get_total_rss_gb p = Ret v -> is_nan v = false.
Proof.
  intros [->| ->]%get_total_rss_gb_value; [reflexivity|].
  eapply same_sign_not_nan, gb_sign.
Qed.

Lemma get_total_rss_gb_positive_or_zero (p : Process) (v : float) :
  plausible p = true -> get_total_rss_gb p = Ret v -> positive_or_zero v = true.
Proof.
  intros Hp [->| ->]%get_total_rss_gb_value; [reflexivity|].
  apply gb_positive_or_zero. now apply plausible_total_bytes.
Qed.

(** With only anticipated failures below a root that answers, the
    aggregator divides the bytes added up by [1e9]. *)
Lemma get_total_rss_gb_anticipated (p : Process) (m : pmem) :
  memory_info p = Ret m -> tree_fails_only_gone p = true ->
  get_total_rss_gb p = int_truediv_float (total_bytes p) lit_1e9.
Proof.
  intros Hm Ht. unfold get_total_rss_gb, total_bytes.
  rewrite get_total_rss_gb_body_unfold, Hm.
  unfold tree_fails_only_gone in Ht. cbv zeta.
  destruct (children p true) as [cs|e].
  - destruct (children_loop cs (rss m)) as [[_ Hrun]|[Hall _]];
      [cbv zeta in Hrun; rewrite Hrun|congruence].
    destruct (int_truediv_float _ _) as [v|e] eqn:Hd; [reflexivity|].
    now rewrite (int_truediv_float_escapes _ _ _ Hd).
  - rewrite Ht, Z.add_0_r.
    destruct (int_truediv_float _ _) as [v|e0] eqn:Hd; [reflexivity|].
    now rewrite (int_truediv_float_escapes _ _ _ Hd).
Qed.

Lemma get_total_rss_gb_live (p : Process) (m : pmem) :
  memory_info p = Ret m -> tree_fails_only_gone p = true -> plausible p = true ->
  get_total_rss_gb p = Ret (div (of_int_rounded (total_bytes p)) lit_1e9).
Proof.
  intros Hm Ht Hp. rewrite (get_total_rss_gb_anticipated p m Hm Ht).
  apply int_truediv_float_1e9.
  pose proof (plausible_total_bytes p Hp). lia.
Qed.

(** [children(recursive=True)] reaches every depth. *)
Lemma below_descendants (p d : Process) : below p d -> In d (descendants p).
Proof.
  induction 1 as [p kids c Hk Hc|p kids c d Hk Hc _ IH].
  - destruct p as [mi ct ks]. simpl in *. subst ks.
    apply in_flat_map. exists c. split; [exact Hc|now left].
  - destruct p as [mi ct ks]. simpl in *. subst ks.
    apply in_flat_map. exists c. split; [exact Hc|now right].
Qed.

Lemma children_recursive_descendants (p : Process) (cs : list Process) :
  children p true = Ret cs -> cs = descendants p.
Proof.
  destruct p as [mi ct ks]. unfold children. simpl.
  destruct ks; now intros [= <-].
Qed.

(** ** The methods, spelled out *)

Lemma stop_unfold (p : Process) (w : world) :
  stop p w =
  match get_total_rss_gb p with
  | Ret v => (Ret tt, stopped v w)
  | Raise e => (Raise e, flagged w)
  end.
Proof.
  unfold stop, stopped, flagged, update_peak, peak.
  unfold bind at 1, set_should_continue at 1, modify at 1.
  unfold bind at 1, try_except at 1, bind at 1, lift at 1.
  destruct (get_total_rss_gb p) as [v|e] eqn:Hg.
  - unfold bind at 1, get_self at 1. cbn [self max_total_rss].
    destruct (gt v (max_total_rss (self w))); reflexivity.
  - now rewrite (get_total_rss_gb_escapes p e Hg).
Qed.

Lemma log_unfold (o : OS) (p : Process) (w : world) :
  log o p w =
  match memory_info p with
  | Raise e => (Raise e, w)
  | Ret m =>
  match create_time p with
  | Raise e => (Raise e, w)
  | Ret created =>
  match int_truediv_float (rss m) lit_1e9 with
  | Raise e => (Raise e, w)
  | Ret rss_gb =>
  match int_truediv_float (vms m) lit_1e9 with
  | Raise e => (Raise e, w)
  | Ret vms_gb =>
  match get_total_rss_gb p with
  | Raise e => (Raise e, w)
  | Ret total =>
  match int_truediv_float (virtual_memory_available o) lit_1e9 with
  | Raise e => (Raise e, sampled total w)
  | Ret avail =>
      (Ret tt,
       {| self := self (sampled total w);
          stdout := stdout w ++
            [Print (Report (sub (time_time o) created) rss_gb total vms_gb avail)] |})
  end end end end end end.
Proof.
  unfold log, sampled, update_peak, peak.
  unfold bind at 1, lift at 1.
  destruct (memory_info p) as [m|e]; [|reflexivity].
  unfold bind at 1, lift at 1.
  destruct (create_time p) as [created|e]; [|reflexivity].
  unfold bind at 1, lift at 1.
  destruct (int_truediv_float (rss m) lit_1e9) as [rss_gb|e]; [|reflexivity].
  unfold bind at 1, lift at 1.
  destruct (int_truediv_float (vms m) lit_1e9) as [vms_gb|e]; [|reflexivity].
  unfold bind at 1, lift at 1.
  destruct (get_total_rss_gb p) as [total|e]; [|reflexivity].
  unfold bind at 1, get_self at 1.
  destruct w as [[sc iv mx] out]. cbn [self max_total_rss should_continue interval stdout].
  destruct (gt total mx); unfold bind, set_max_total_rss, modify, ret, lift, print, emit;
    cbn [self max_total_rss should_continue interval stdout];
    destruct (int_truediv_float (virtual_memory_available o) lit_1e9); reflexivity.
Qed.

(** Each call that writes the peak replaces it by the sample only when the
    sample is above it. *)
Lemma perform_peak (c : call) (w : world) :
  peak (snd (perform c w)) =
  match sample_of c with
  | Some v => update_peak v (peak w)
  | None => peak w
  end.
Proof.
  destruct c as [o p|p]; simpl perform; simpl sample_of.
  - rewrite log_unfold.
    destruct (memory_info p) as [m|e]; [|reflexivity].
    destruct (create_time p) as [created|e]; [|reflexivity].
    destruct (int_truediv_float (rss m) lit_1e9) as [rss_gb|e]; [|reflexivity].
    destruct (int_truediv_float (vms m) lit_1e9) as [vms_gb|e]; [|reflexivity].
    destruct (get_total_rss_gb p) as [total|e]; [|reflexivity].
    destruct (int_truediv_float (virtual_memory_available o) lit_1e9); reflexivity.
  - rewrite stop_unfold.
    destruct (get_total_rss_gb p) as [v|e]; reflexivity.
Qed.

Lemma sample_of_total (c : call) (v : float) :
  sample_of c = Some v -> get_total_rss_gb (handle_of c) = Ret v.
Proof.
  destruct c as [o p|p]; simpl.
  - destruct (memory_info p) as [m|]; [|discriminate].
    destruct (create_time p); [|discriminate].
    destruct (int_truediv_float (rss m) lit_1e9); [|discriminate].
    destruct (int_truediv_float (vms m) lit_1e9); [|discriminate].
    destruct (get_total_rss_gb p); [|discriminate]. now intros [= <-].
  - destruct (get_total_rss_gb p); [|discriminate]. now intros [= <-].
Qed.

(** ** Running maximum *)

Lemma update_peak_choice (v pk : float) :
  update_peak v pk = v \/ update_peak v pk = pk.
Proof. unfold update_peak. destruct (gt v pk); auto. Qed.

Lemma update_peak_not_nan (v pk : float) :
  is_nan v = false -> is_nan pk = false -> is_nan (update_peak v pk) = false.
Proof. destruct (update_peak_choice v pk) as [-> | ->]; auto. Qed.

Lemma update_peak_above_old (v pk : float) :
  is_nan pk = false -> le pk (update_peak v pk) = true.
Proof.
  intros Hpk. unfold update_peak. destruct (gt v pk) eqn:Hgt.
  - now apply gt_le.
  - now apply le_refl.
Qed.

Lemma update_peak_above_new (v pk : float) :
  is_nan v = false -> is_nan pk = false -> le v (update_peak v pk) = true.
Proof.
  intros Hv Hpk. unfold update_peak. destruct (gt v pk) eqn:Hgt.
  - now apply le_refl.
  - now apply not_gt_le.
Qed.

Lemma lifetime_peak (cs : list call) (w : world) :
  peak (lifetime cs w) =
  fold_left (fun pk v => update_peak v pk) (samples cs) (peak w).
Proof.
  revert w. induction cs as [|c cs IH]; intros w; [reflexivity|].
  simpl. rewrite IH, perform_peak. destruct (sample_of c); reflexivity.
Qed.

Lemma lifetime_app (cs1 cs2 : list call) (w : world) :
  lifetime (cs1 ++ cs2) w = lifetime cs2 (lifetime cs1 w).
Proof. revert w. induction cs1 as [|c cs1 IH]; intros w; simpl; auto. Qed.

Lemma running_max_not_nan (vs : list float) (pk : float) :
  Forall (fun v => is_nan v = false) vs -> is_nan pk = false ->
  is_nan (fold_left (fun pk v => update_peak v pk) vs pk) = false.
Proof.
  intros Hvs. revert pk. induction Hvs as [|v rest Hv _ IH]; intros pk Hpk; simpl; auto.
  apply IH. now apply update_peak_not_nan.
Qed.

Lemma running_max_above_start (vs : list float) (pk : float) :
  Forall (fun v => is_nan v = false) vs -> is_nan pk = false ->
  le pk (fold_left (fun pk v => update_peak v pk) vs pk) = true.
Proof.
  intros Hvs. revert pk. induction Hvs as [|v rest Hv _ IH]; intros pk Hpk; simpl.
  - now apply le_refl.
  - apply le_trans with (y := update_peak v pk).
    + now apply update_peak_above_old.
    + apply IH. now apply update_peak_not_nan.
Qed.

Lemma running_max_above_each (vs : list float) (pk v : float) :
  Forall (fun v => is_nan v = false) vs -> is_nan pk = false -> In v vs ->
  le v (fold_left (fun pk v => update_peak v pk) vs pk) = true.
Proof.
  intros Hvs. revert pk.
  induction Hvs as [|v0 rest Hv0 Hrest IH]; intros pk Hpk Hin; simpl.
  - destruct Hin.
  - destruct Hin as [<-|Hin].
    + apply le_trans with (y := update_peak v0 pk).
      * now apply update_peak_above_new.
      * apply running_max_above_start; [exact Hrest|].
        now apply update_peak_not_nan.
    + apply IH; [now apply update_peak_not_nan|exact Hin].
Qed.

Lemma running_max_choice (vs : list float) (pk : float) :
  fold_left (fun pk v => update_peak v pk) vs pk = pk \/
  In (fold_left (fun pk v => update_peak v pk) vs pk) vs.
Proof.
  revert pk. induction vs as [|v rest IH]; intros pk; simpl; [now left|].
  destruct (IH (update_peak v pk)) as [H|H]; [|now right; right].
  rewrite H. destruct (update_peak_choice v pk) as [-> | ->]; auto.
Qed.

(** From the initial [0.0], with totals that are never negative, the peak
    is one of the totals as soon as there is one. *)
Lemma running_max_from_zero (vs : list float) :
  Forall (fun v => positive_or_zero v = true) vs -> vs <> [] ->
  In (fold_left (fun pk v => update_peak v pk) vs zero) vs.
Proof.
  intros Hvs Hne. destruct vs as [|v rest]; [congruence|]. simpl.
  assert (Hfirst : update_peak v zero = v).
  { unfold update_peak. destruct (gt v zero) eqn:Hgt; [reflexivity|].
    symmetry. apply positive_or_zero_not_gt; [now inversion Hvs|exact Hgt]. }
  rewrite Hfirst. destruct (running_max_choice rest v) as [-> |H]; auto.
Qed.

Lemma samples_positive_or_zero (cs : list call) :
  Forall (fun c => plausible (handle_of c) = true) cs ->
  Forall (fun v => positive_or_zero v = true) (samples cs).
Proof.
  induction 1 as [|c cs Hc _ IH]; simpl; [constructor|].
  destruct (sample_of c) as [v|] eqn:Hs; [|exact IH].
  constructor; [|exact IH].
  apply (get_total_rss_gb_positive_or_zero (handle_of c)); [exact Hc|].
  now apply sample_of_total.
Qed.

Lemma samples_not_nan (cs : list call) :
  Forall (fun v => is_nan v = false) (samples cs).
Proof.
  induction cs as [|c cs IH]; simpl; [constructor|].
  destruct (sample_of c) as [v|] eqn:Hs; [|exact IH].
  constructor; [|exact IH].
  apply (get_total_rss_gb_not_nan (handle_of c)). now apply sample_of_total.
Qed.

(** [log] on a target that answers, with anticipated failures only below
    it: the line printed and the world left. *)
Lemma log_runs (o : OS) (p : Process) (w : world) (m : pmem) (created : float) :
  memory_info p = Ret m -> create_time p = Ret created ->
  tree_fails_only_gone p = true -> plausible p = true -> plausible_os o = true ->
  log o p w =
  (Ret tt,
   {| self := self (sampled (div (of_int_rounded (total_bytes p)) lit_1e9) w);
      stdout := stdout w ++
        [Print (Report (sub (time_time o) created)
                       (div (of_int_rounded (rss m)) lit_1e9)
                       (div (of_int_rounded (total_bytes p)) lit_1e9)
                       (div (of_int_rounded (vms m)) lit_1e9)
                       (div (of_int_rounded (virtual_memory_available o)) lit_1e9))] |}).
Proof.
  intros Hm Hc Ht Hp Ho. rewrite log_unfold, Hm, Hc.
  rewrite (get_total_rss_gb_live p m Hm Ht Hp).
  unfold plausible, sizes_in_range, size_in_range in Hp. rewrite Hm in Hp.
  apply andb_prop in Hp as [[[H1 H2]%andb_prop [H3 H4]%andb_prop]%andb_prop _].
  unfold plausible_os, size_in_range in Ho. apply andb_prop in Ho as [H5 H6].
  rewrite !int_truediv_float_1e9 by lia. reflexivity.
Qed.

(** ** The sampling loop *)

Lemma host_activity_returns (t : tick) (w : world) :
  fst (host_activity t w) = Ret tt.
Proof. unfold host_activity, in_host_thread. destruct (host_stop t); reflexivity. Qed.

Lemma sampling_loop_cons (t : tick) (rest : list tick) (w : world) :
  sampling_loop (t :: rest) w =
  let w2 := snd (host_activity t w) in
  if main_thread_is_alive t then
    if negb (should_continue (self w2)) then (Ret true, w2)
    else match log (os t) (answers t) w2 with
         | (Ret _, w3) =>
             sampling_loop rest
               {| self := self w3;
                  stdout := stdout w3 ++ [Sleep (interval (self w3))] |}
         | (Raise e, w3) => (Raise e, w3)
         end
  else (Ret true, w2).
Proof.
  cbn [sampling_loop]. unfold bind at 1.
  pose proof (host_activity_returns t w) as Hh.
  destruct (host_activity t w) as [r w2]. simpl in Hh. subst r. cbv zeta. cbn [snd].
  destruct (main_thread_is_alive t); [|reflexivity].
  unfold bind at 1, get_self at 1.
  destruct (negb (should_continue (self w2))); [reflexivity|].
  unfold bind at 1.
  destruct (log (os t) (answers t) w2) as [[[]|e] w3]; reflexivity.
Qed.

Lemma sampling_loop_app (before after : list tick) (w : world) :
  sampling_loop (before ++ after) w =
  match sampling_loop before w with
  | (Ret false, w1) => sampling_loop after w1
  | r => r
  end.
Proof.
  revert w. induction before as [|t before IH]; intros w; [reflexivity|].
  rewrite <- app_comm_cons, !sampling_loop_cons. cbv zeta.
  destruct (main_thread_is_alive t); [|reflexivity].
  destruct (negb _); [reflexivity|].
  destruct (log _ _ _) as [[[]|e] w3]; [apply IH|reflexivity].
Qed.

Lemma run_unfold (ticks : list tick) (w : world) :
  _run ticks w =
  match sampling_loop ticks w with
  | (Ret true, w1) => (Ret Returned, after_loop w1)
  | (Ret false, w1) => (Ret Looping, w1)
  | (Raise e, w1) => (Raise e, w1)
  end.
Proof.
  unfold _run, bind at 1.
  destruct (sampling_loop ticks w) as [[[]|e] w1]; try reflexivity.
  unfold bind at 1, get_self at 1, after_loop, peak.
  destruct w1 as [me out]. cbn [self stdout].
  destruct (gt (max_total_rss me) zero).
  - reflexivity.
  - unfold bind, ret. cbn. now rewrite app_nil_r.
Qed.

(** The peak the loop leaves is the peak it found or one of the totals
    sampled on the way. *)
Lemma sampling_loop_peak (ticks : list tick) (w w1 : world) (r : result bool) :
  sampling_loop ticks w = (r, w1) ->
  peak w1 = peak w \/
  exists p, In p (handles ticks) /\ get_total_rss_gb p = Ret (peak w1).
Proof.
  revert w. induction ticks as [|t rest IH]; intros w Hloop.
  - injection Hloop as _ <-. now left.
  - rewrite sampling_loop_cons in Hloop. cbv zeta in Hloop.
    assert (H2 : peak (snd (host_activity t w)) = peak w \/
                 exists p, In p (handles (t :: rest)) /\
                           get_total_rss_gb p = Ret (peak (snd (host_activity t w)))).
    { unfold host_activity, in_host_thread. destruct (host_stop t) as [p|] eqn:Hs;
        [|now left]. cbn [snd].
      pose proof (perform_peak (CallStop p) w) as Hp. cbn [perform sample_of] in Hp.
      rewrite Hp. destruct (get_total_rss_gb p) as [v|e] eqn:Hg; [|now left].
      destruct (update_peak_choice v (peak w)) as [-> | ->]; [|now left].
      right. exists p. split; [|exact Hg].
      cbn [handles flat_map]. rewrite Hs. right. now left. }
    set (w2 := snd (host_activity t w)) in *.
    assert (Hexit : (r, w1) = (Ret true, w2) ->
                    peak w1 = peak w \/
                    exists p, In p (handles (t :: rest)) /\
                              get_total_rss_gb p = Ret (peak w1))
      by (now intros [= -> ->]).
    destruct (main_thread_is_alive t); [|now apply Hexit].
    destruct (negb (should_continue (self w2))); [now apply Hexit|]. clear Hexit.
    pose proof (perform_peak (CallLog (os t) (answers t)) w2) as Hp.
    cbn [perform] in Hp.
    assert (H3 : peak (snd (log (os t) (answers t) w2)) = peak w2 \/
                 get_total_rss_gb (answers t) =
                 Ret (peak (snd (log (os t) (answers t) w2)))).
    { rewrite Hp. destruct (sample_of _) as [v|] eqn:Hs; [|now left].
      apply sample_of_total in Hs. cbn [handle_of] in Hs.
      destruct (update_peak_choice v (peak w2)) as [-> | ->]; [now right|now left]. }
    assert (Hhere : forall w3,
               peak w3 = peak (snd (log (os t) (answers t) w2)) ->
               peak w3 = peak w \/
               exists p, In p (handles (t :: rest)) /\ get_total_rss_gb p = Ret (peak w3)).
    { intros w3 ->. destruct H3 as [-> |H3]; [exact H2|].
      right. exists (answers t). split; [now left|exact H3]. }
    destruct (log (os t) (answers t) w2) as [[[]|e] w3]; cbn [snd] in Hhere.
    + apply IH in Hloop. unfold peak at 2 in Hloop. cbn [self] in Hloop.
      fold (peak w3) in Hloop. destruct Hloop as [Hloop|(p & Hin & Hp')].
      * apply Hhere. exact Hloop.
      * right. exists p. split; [|exact Hp'].
        cbn [handles flat_map]. apply in_or_app. now right.
    + injection Hloop as _ <-. now apply Hhere.
Qed.

(** ** Two threads *)

Lemma race_app (s1 s2 : list thread) (c : racing) :
  race (s1 ++ s2) c = race s2 (race s1 c).
Proof. revert c. induction s1 as [|who s1 IH]; intros c; simpl; auto. Qed.

(** Two steps in a row complete an update, as the method alone runs it. *)
Lemma updater_two_steps (v pk : float) :
  let '(u1, pk1) := updater_step {| observed := v; pc := AtTest |} pk in
  updater_step u1 pk1 = ({| observed := v; pc := AtEnd |}, update_peak v pk).
Proof. unfold updater_step, update_peak. simpl. destruct (gt v pk); reflexivity. Qed.

Lemma race_log_alone (n : nat) (pk v_log : float) (u : updater) :
  race (List.repeat SamplingThread (2 + n))
       {| shared_peak := pk; in_log := {| observed := v_log; pc := AtTest |}; in_stop := u |} =
  {| shared_peak := update_peak v_log pk;
     in_log := {| observed := v_log; pc := AtEnd |}; in_stop := u |}.
Proof.
  cbn [Nat.add List.repeat race]. unfold race_step at 1 2, updater_step, update_peak.
  cbn [in_log shared_peak in_stop pc observed].
  destruct (gt v_log pk); cbn [in_log shared_peak in_stop pc observed];
    induction n as [|n IH]; simpl; auto.
Qed.

Lemma race_stop_alone (n : nat) (pk v_stop : float) (u : updater) :
  race (List.repeat HostThread (2 + n))
       {| shared_peak := pk; in_log := u; in_stop := {| observed := v_stop; pc := AtTest |} |} =
  {| shared_peak := update_peak v_stop pk;
     in_log := u; in_stop := {| observed := v_stop; pc := AtEnd |} |}.
Proof.
  cbn [Nat.add List.repeat race]. unfold race_step at 1 2, updater_step, update_peak.
  cbn [in_log shared_peak in_stop pc observed].
  destruct (gt v_stop pk); cbn [in_log shared_peak in_stop pc observed];
    induction n as [|n IH]; simpl; auto.
Qed.

(** * Properties of the specification *)

(** C1.  The stored peak is a running maximum.  Each call that writes
    [max_total_rss] ([log] and [stop]) replaces it by its sample only when
    the sample is above it.  Hence, for a monitor created by [__init__] and
    any sequence of such calls: the peak is at least every sample taken, it
    is one of the samples once one was taken (and the initial [0.0] before),
    and it never decreases from one moment of the sequence to a later one. *)
Theorem peak_is_running_maximum (i : number) (calls : list call) :
  Forall (fun c => plausible (handle_of c) = true) calls ->
  let w := lifetime calls (fresh (__init__ i)) in
  (forall c w0,
      peak (snd (perform c w0)) =
      match sample_of c with
      | Some v => if gt v (peak w0) then v else peak w0
      | None => peak w0
      end) /\
  (forall v, In v (samples calls) -> le v (peak w) = true) /\
  (samples calls <> [] -> In (peak w) (samples calls)) /\
  (samples calls = [] -> peak w = zero) /\
  (forall earlier later,
      calls = earlier ++ later ->
      le (peak (lifetime earlier (fresh (__init__ i)))) (peak w) = true).
Proof.
  intros Hcalls w. subst w. repeat split.
  - intros c w0. apply perform_peak.
  - intros v Hv. rewrite lifetime_peak.
    apply running_max_above_each; [apply samples_not_nan|reflexivity|exact Hv].
  - intros Hne. rewrite lifetime_peak.
    apply running_max_from_zero; [now apply samples_positive_or_zero|exact Hne].
  - intros Hnil. now rewrite lifetime_peak, Hnil.
  - intros earlier later ->. rewrite lifetime_app, (lifetime_peak later).
    apply running_max_above_start; [apply samples_not_nan|].
    rewrite lifetime_peak. apply running_max_not_nan; [apply samples_not_nan|reflexivity].
Qed.

Lemma peak_is_running_maximum_witness :
  let calls := [CallLog sample_os alone_1e9; CallLog sample_os alone_2e9;
                CallLog sample_os exited; CallStop alone_1e9] in
  Forall (fun c => plausible (handle_of c) = true) calls /\
  samples calls = [one_gb; two_gb; one_gb] /\
  peak (lifetime calls new_monitor) = two_gb /\
  In (peak (lifetime calls new_monitor)) (samples calls).
Proof.
  cbv zeta.
  assert (H : Forall (fun c => plausible (handle_of c) = true)
                [CallLog sample_os alone_1e9; CallLog sample_os alone_2e9;
                 CallLog sample_os exited; CallStop alone_1e9])
    by (repeat constructor).
  repeat split; try exact H; try reflexivity.
  destruct (peak_is_running_maximum default_interval _ H) as (_ & _ & Hin & _).
  apply Hin. discriminate.
Defined.

(** C2.  When the root answers with resident size [rss m] and the processes
    enumerated by [children(recursive=True)] all answer, with sizes [ms],
    [get_total_rss_gb] returns the integer sum of these sizes converted to
    float and divided by [1e9]; and the enumeration holds every process
    below the root, at every depth. *)
Theorem tree_aggregation_exact (p : Process) (m : pmem)
        (cs : list Process) (ms : list pmem) :
  memory_info p = Ret m ->
  children p true = Ret cs ->
  map memory_info cs = map Ret ms ->
  plausible p = true ->
  get_total_rss_gb p =
    Ret (div (of_int_rounded (rss m + fold_right Z.add 0 (map rss ms))) lit_1e9) /\
  lit_1e9 = of_int_rounded (10 ^ 9) /\
  (forall d, below p d -> In d cs).
Proof.
  intros Hm Hc Hms Hp.
  assert (Hall : forallb (fun c => fails_only_gone (memory_info c)) cs = true /\
                 live_rss cs = fold_right Z.add 0 (map rss ms)).
  { clear Hc Hp. revert ms Hms. induction cs as [|c cs IH]; intros [|m0 ms] Hms;
      try discriminate; [split; reflexivity|].
    simpl in Hms. injection Hms as Hc Hrest. destruct (IH ms Hrest) as [Ha Hl].
    rewrite live_rss_cons. unfold queryable, resident. simpl. rewrite Hc. simpl.
    rewrite Ha, Hl. split; reflexivity. }
  destruct Hall as [Hall Hsum].
  assert (Ht : tree_fails_only_gone p = true)
    by (unfold tree_fails_only_gone; now rewrite Hc).
  rewrite (get_total_rss_gb_live p m Hm Ht Hp).
  unfold total_bytes. rewrite Hm, Hc, Hsum.
  repeat split.
  intros d Hd. rewrite (children_recursive_descendants p cs Hc).
  now apply below_descendants.
Qed.

Lemma tree_aggregation_exact_witness :
  let child := proc (5 * 10 ^ 8) [proc (5 * 10 ^ 8) []] in
  let grandchild := proc (5 * 10 ^ 8) [] in
  let root := proc (10 ^ 9) [child] in
  get_total_rss_gb root = Ret two_gb /\ In grandchild [child; grandchild].
Proof.
  cbv zeta.
  destruct (tree_aggregation_exact
              (proc (10 ^ 9) [proc (5 * 10 ^ 8) [proc (5 * 10 ^ 8) []]])
              {| rss := 10 ^ 9; vms := 2 * 10 ^ 9 |}
              [proc (5 * 10 ^ 8) [proc (5 * 10 ^ 8) []]; proc (5 * 10 ^ 8) []]
              [{| rss := 5 * 10 ^ 8; vms := 2 * (5 * 10 ^ 8) |};
               {| rss := 5 * 10 ^ 8; vms := 2 * (5 * 10 ^ 8) |}]
              eq_refl eq_refl eq_refl eq_refl) as (Hv & _ & Hdeep).
  split.
  - exact Hv.
  - apply Hdeep.
    apply below_deeper with (kids := [proc (5 * 10 ^ 8) [proc (5 * 10 ^ 8) []]])
                            (c := proc (5 * 10 ^ 8) [proc (5 * 10 ^ 8) []]);
      [reflexivity|now left|].
    apply below_child with (kids := [proc (5 * 10 ^ 8) []]); [reflexivity|now left].
Defined.

(** C3.  Anticipated absence does not raise.  A root that has exited or
    denies access gives [0.0].  When the root answers and every enumerated
    process answers or has exited or denies access, the result is the sum
    over the root and the processes that answer, the others being skipped.
    When the enumeration itself fails that way, the result is the root's
    own size. *)
Theorem aggregator_degrades_gracefully (p : Process) :
  (forall e, memory_info p = Raise e -> process_gone e = true ->
             get_total_rss_gb p = Ret zero) /\
  (forall m cs,
      memory_info p = Ret m -> children p true = Ret cs ->
      forallb (fun c => fails_only_gone (memory_info c)) cs = true ->
      plausible p = true ->
      get_total_rss_gb p =
        Ret (div (of_int_rounded
                    (rss m + fold_right Z.add 0 (map resident (filter queryable cs))))
                 lit_1e9)) /\
  (forall m e,
      memory_info p = Ret m -> children p true = Raise e ->
      process_gone e = true -> plausible p = true ->
      get_total_rss_gb p = Ret (div (of_int_rounded (rss m)) lit_1e9)).
Proof.
  repeat split.
  - intros e Hm He.
    destruct (get_total_rss_gb_cases p)
      as [(e' & _ & _ & H)|[(e' & He' & H)|(m & Hm' & _)]]; [exact H| |congruence].
    exfalso. revert H. unfold get_total_rss_gb.
    rewrite get_total_rss_gb_body_unfold, Hm, He. discriminate.
  - intros m cs Hm Hc Hall Hp.
    assert (Ht : tree_fails_only_gone p = true)
      by (unfold tree_fails_only_gone; now rewrite Hc).
    rewrite (get_total_rss_gb_live p m Hm Ht Hp).
    unfold total_bytes. now rewrite Hm, Hc.
  - intros m e Hm Hc He Hp.
    assert (Ht : tree_fails_only_gone p = true)
      by (unfold tree_fails_only_gone; now rewrite Hc).
    rewrite (get_total_rss_gb_live p m Hm Ht Hp).
    unfold total_bytes. now rewrite Hm, Hc, Z.add_0_r.
Qed.

Lemma aggregator_degrades_gracefully_witness :
  get_total_rss_gb exited = Ret zero /\
  get_total_rss_gb family = Ret two_gb /\
  get_total_rss_gb
    (mkProcess (Ret {| rss := 10 ^ 9; vms := 10 ^ 9 |}) started (Raise AccessDenied)) =
  Ret one_gb.
Proof.
  split; [|split].
  - destruct (aggregator_degrades_gracefully exited) as (H & _ & _).
    exact (H NoSuchProcess eq_refl eq_refl).
  - destruct (aggregator_degrades_gracefully family) as (_ & H & _).
    exact (H {| rss := 10 ^ 9; vms := 2 * 10 ^ 9 |}
             [proc (5 * 10 ^ 8) [proc (5 * 10 ^ 8) []]; proc (5 * 10 ^ 8) []; exited]
             eq_refl eq_refl eq_refl eq_refl).
  - destruct (aggregator_degrades_gracefully
                (mkProcess (Ret {| rss := 10 ^ 9; vms := 10 ^ 9 |}) started
                           (Raise AccessDenied))) as (_ & _ & H).
    exact (H {| rss := 10 ^ 9; vms := 10 ^ 9 |} AccessDenied
             eq_refl eq_refl eq_refl eq_refl).
Defined.

(** C10.  No process-gone or access-denied error leaves
    [get_total_rss_gb]; when every failure it meets is of that kind it
    returns, and what it returns is never below [0.0]; so the peak of a
    monitor is never below [0.0] either. *)
Theorem aggregator_total_and_never_negative (p : Process) (i : number)
        (calls : list call) :
  plausible p = true ->
  Forall (fun c => plausible (handle_of c) = true) calls ->
  (forall e, get_total_rss_gb p = Raise e -> process_gone e = false) /\
  (anticipated p = true ->
   exists v, get_total_rss_gb p = Ret v /\ ge v zero = true) /\
  (forall v, get_total_rss_gb p = Ret v -> ge v zero = true) /\
  ge (peak (lifetime calls (fresh (__init__ i)))) zero = true.
Proof.
  intros Hp Hcalls. repeat split.
  - apply get_total_rss_gb_escapes.
  - intros Ha. unfold anticipated in Ha.
    destruct (memory_info p) as [m|e] eqn:Hm.
    + exists (div (of_int_rounded (total_bytes p)) lit_1e9). split.
      * now apply (get_total_rss_gb_live p m).
      * apply positive_or_zero_ge, gb_positive_or_zero.
        now apply plausible_total_bytes.
    + exists zero. split; [|reflexivity].
      destruct (get_total_rss_gb_cases p)
        as [(e' & _ & _ & H)|[(e' & He' & H)|(m & Hm' & _)]]; [exact H| |congruence].
      exfalso. revert H. unfold get_total_rss_gb.
      rewrite get_total_rss_gb_body_unfold, Hm, Ha. discriminate.
  - intros v Hv. apply positive_or_zero_ge.
    now apply (get_total_rss_gb_positive_or_zero p).
  - apply positive_or_zero_ge. rewrite lifetime_peak.
    destruct (running_max_choice (samples calls) (peak (fresh (__init__ i)))) as [-> |Hin].
    + reflexivity.
    + pose proof (samples_positive_or_zero calls Hcalls) as Hall.
      rewrite Forall_forall in Hall. now apply Hall.
Qed.

Lemma aggregator_total_and_never_negative_witness :
  (exists v, get_total_rss_gb family = Ret v /\ ge v zero = true) /\
  ge (peak (lifetime [CallLog sample_os family; CallStop exited] new_monitor)) zero = true.
Proof.
  assert (Hcalls : Forall (fun c => plausible (handle_of c) = true)
                     [CallLog sample_os family; CallStop exited])
    by (repeat constructor).
  destruct (aggregator_total_and_never_negative family default_interval
              [CallLog sample_os family; CallStop exited] eq_refl Hcalls)
    as (_ & Hret & _ & Hpeak).
  split; [exact (Hret eq_refl)|exact Hpeak].
Defined.

(** C7.  [log] does not catch a failure of its own [memory_info] call on
    the target: whatever that call raises leaves [log], before anything is
    written or printed; so does a failure of its [create_time] call.
    Failures met inside [get_total_rss_gb] do not:
    with a target that answers and anticipated failures only below it,
    [log] returns, having printed its report line. *)
Theorem log_propagates_target_failure (o : OS) (p : Process) (w : world) :
  (forall e, memory_info p = Raise e -> log o p w = (Raise e, w)) /\
  (forall m e, memory_info p = Ret m -> create_time p = Raise e ->
               log o p w = (Raise e, w)) /\
  (forall m created,
      memory_info p = Ret m -> create_time p = Ret created ->
      tree_fails_only_gone p = true ->
      plausible p = true -> plausible_os o = true ->
      exists dt rss_gb total vms_gb avail,
        get_total_rss_gb p = Ret total /\
        log o p w =
        (Ret tt,
         {| self := self (sampled total w);
            stdout := stdout w ++ [Print (Report dt rss_gb total vms_gb avail)] |})).
Proof.
  split; [|split].
  - intros e Hm. now rewrite log_unfold, Hm.
  - intros m e Hm Hc. now rewrite log_unfold, Hm, Hc.
  - intros m created Hm Hc Ht Hp Ho.
    eexists _, _, _, _, _. split.
    + now apply (get_total_rss_gb_live p m).
    + now apply (log_runs o p w m created).
Qed.

Lemma log_propagates_target_failure_witness :
  log sample_os exited new_monitor = (Raise NoSuchProcess, new_monitor) /\
  get_total_rss_gb exited = Ret zero /\
  exists l, log sample_os family new_monitor =
            (Ret tt, {| self := self (sampled two_gb new_monitor);
                        stdout := [Print l] |}).
Proof.
  destruct (log_propagates_target_failure sample_os exited new_monitor) as [Hraise _].
  destruct (log_propagates_target_failure sample_os family new_monitor) as (_ & _ & Hruns).
  split; [|split].
  - exact (Hraise NoSuchProcess eq_refl).
  - reflexivity.
  - destruct (Hruns {| rss := 10 ^ 9; vms := 2 * 10 ^ 9 |} (of_int_rounded 1700000000)
                eq_refl eq_refl eq_refl eq_refl eq_refl)
      as (dt & rss_gb & total & vms_gb & avail & Htotal & Hlog).
    exists (Report dt rss_gb total vms_gb avail).
    rewrite Hlog. injection Htotal as <-. reflexivity.
Defined.

(** C8.  Gigabytes are decimal.  For a target of exactly 10^9 resident
    bytes, [get_total_rss_gb] (target alone) returns [1.0] and the report
    line of [log] carries [1.0] as the target's own size; [1.0] prints as
    [1.000] under [:.3f], in the report line and in the summary line; the
    divisor [1e9] is 10^9, and dividing by 2^30 instead would print
    [0.931]. *)
Theorem billion_bytes_is_one_gb (o : OS) (p : Process) (m : pmem)
        (created : float) (w : world) :
  memory_info p = Ret m -> rss m = 10 ^ 9 -> create_time p = Ret created ->
  tree_fails_only_gone p = true -> plausible p = true -> plausible_os o = true ->
  (children p true = Ret [] -> get_total_rss_gb p = Ret one_gb) /\
  (exists dt total vms_gb avail w',
      log o p w = (Ret tt, w') /\
      stdout w' = stdout w ++ [Print (Report dt one_gb total vms_gb avail)]) /\
  format_fixed 3 one_gb = "1.000"%string /\
  (forall show dt total vms_gb avail,
      render show (Report dt one_gb total vms_gb avail) =
      ("MemoryMonitor Time: " ++ show dt ++
       "   Physical mem: 1.000 GB   Total (with children): " ++
       format_fixed 3 total ++ " GB   Virtual mem: " ++
       format_fixed 3 vms_gb ++ " GB   Available mem: " ++
       format_fixed 1 avail ++ " GB")%string) /\
  render (fun _ => EmptyString) (Summary one_gb) =
    "MemoryMonitor: Maximum total memory (including children): 1.000 GB"%string /\
  lit_1e9 = of_int_rounded (10 ^ 9) /\
  format_fixed 3 binary_gb_of_1e9 = "0.931"%string.
Proof.
  intros Hm Hrss Hc Ht Hp Ho. split; [|split; [|repeat split]].
  - intros Hkids. rewrite (get_total_rss_gb_live p m Hm Ht Hp).
    unfold total_bytes. rewrite Hm, Hkids, Hrss. reflexivity.
  - eexists _, _, _, _, _. split.
    + apply (log_runs o p w m created); assumption.
    + cbn [stdout]. rewrite Hrss. reflexivity.
Qed.

Lemma billion_bytes_is_one_gb_witness :
  get_total_rss_gb alone_1e9 = Ret one_gb /\
  format_fixed 3 one_gb = "1.000"%string /\
  exists dt total vms_gb avail w',
    log sample_os alone_1e9 new_monitor = (Ret tt, w') /\
    stdout w' = [Print (Report dt one_gb total vms_gb avail)].
Proof.
  destruct (billion_bytes_is_one_gb sample_os alone_1e9
              {| rss := 10 ^ 9; vms := 2 * 10 ^ 9 |} (of_int_rounded 1700000000)
              new_monitor eq_refl eq_refl eq_refl eq_refl eq_refl eq_refl)
    as (Hagg & Hlog & Hfmt & _).
  split; [exact (Hagg eq_refl)|split; [exact Hfmt|exact Hlog]].
Defined.

(** C5.  [stop] clears [should_continue] whatever happens next.  When its
    own final sample is [v], it returns with the peak raised to [v] if [v]
    is above it, having printed one line, the summary of that peak, and
    nothing else.  A target that has exited or denies access makes the
    sample [0.0], not an error; no process-gone or access-denied error ever
    leaves [stop].  [stop] depends on the handle's answers and the object
    only, and puts no sleep in the trace: it does not wait for the sampling
    thread. *)
Theorem stop_bookkeeping (p : Process) (w : world) :
  should_continue (self (snd (stop p w))) = false /\
  (forall v, get_total_rss_gb p = Ret v ->
     let pk := if gt v (peak w) then v else peak w in
     stop p w =
     (Ret tt,
      {| self := {| should_continue := false;
                    interval := interval (self w);
                    max_total_rss := pk |};
         stdout := stdout w ++ [Print (Summary pk)] |})) /\
  (forall e, memory_info p = Raise e -> process_gone e = true ->
     stop p w = (Ret tt, stopped zero w)) /\
  (anticipated p = true -> plausible p = true -> fst (stop p w) = Ret tt) /\
  (forall e, fst (stop p w) = Raise e -> process_gone e = false) /\
  (forall s, In (Sleep s) (stdout (snd (stop p w))) -> In (Sleep s) (stdout w)).
Proof.
  rewrite stop_unfold.
  assert (Hgone : forall e, memory_info p = Raise e -> process_gone e = true ->
                            get_total_rss_gb p = Ret zero).
  { intros e Hm He. unfold get_total_rss_gb.
    now rewrite get_total_rss_gb_body_unfold, Hm, He. }
  split; [|split; [|split; [|split; [|split]]]].
  - destruct (get_total_rss_gb p); reflexivity.
  - intros v ->. reflexivity.
  - intros e Hm He. now rewrite (Hgone e Hm He).
  - intros Ha Hp. unfold anticipated in Ha.
    destruct (memory_info p) as [m|e] eqn:Hm.
    + now rewrite (get_total_rss_gb_live p m Hm Ha Hp).
    + now rewrite (Hgone e eq_refl Ha).
  - intros e. destruct (get_total_rss_gb p) as [v|e'] eqn:Hg; [discriminate|].
    intros [= <-]. now apply (get_total_rss_gb_escapes p).
  - intros s. destruct (get_total_rss_gb p) as [v|e']; cbn [snd stopped flagged stdout].
    + rewrite in_app_iff. intros [H|[H|[]]]; [exact H|discriminate].
    + auto.
Qed.

Lemma stop_bookkeeping_witness :
  fst (stop family new_monitor) = Ret tt /\
  stop family new_monitor =
  (Ret tt,
   {| self := {| should_continue := false; interval := default_interval;
                 max_total_rss := two_gb |};
      stdout := [Print (Summary two_gb)] |}) /\
  stop exited (stopped two_gb new_monitor) =
  (Ret tt,
   {| self := {| should_continue := false; interval := default_interval;
                 max_total_rss := two_gb |};
      stdout := [Print (Summary two_gb); Print (Summary two_gb)] |}).
Proof.
  split; [|split].
  - destruct (stop_bookkeeping family new_monitor) as (_ & _ & _ & H & _).
    exact (H eq_refl eq_refl).
  - destruct (stop_bookkeeping family new_monitor) as (_ & H & _).
    exact (H two_gb eq_refl).
  - destruct (stop_bookkeeping exited (stopped two_gb new_monitor)) as (_ & _ & H & _).
    exact (H NoSuchProcess eq_refl eq_refl).
Defined.

(** C9.  Once the loop of [_run] is left, in world [w1] say, [_run]
    returns with the object exactly as the loop left it (no further sample
    is taken) and prints the summary of the stored peak if and only if that
    peak is above zero.  In particular a monitor whose peak was [0.0] and
    whose every sample, by [log] or by [stop], totalled [0.0] returns
    having printed nothing more. *)
Theorem run_summary_iff_peak_positive (ticks : list tick) (w w1 : world) :
  sampling_loop ticks w = (Ret true, w1) ->
  exists w',
    _run ticks w = (Ret Returned, w') /\
    self w' = self w1 /\
    (gt (peak w1) zero = true ->
     stdout w' = stdout w1 ++ [Print (Summary (peak w1))]) /\
    (gt (peak w1) zero = false -> stdout w' = stdout w1) /\
    (peak w = zero ->
     (forall p v, In p (handles ticks) -> get_total_rss_gb p = Ret v -> v = zero) ->
     w' = w1).
Proof.
  intros Hloop. exists (after_loop w1). rewrite run_unfold, Hloop.
  unfold after_loop. cbn [self stdout].
  split; [reflexivity|split; [reflexivity|split; [|split]]].
  - now intros ->.
  - intros ->. apply app_nil_r.
  - intros Hz Hall.
    assert (Hz1 : peak w1 = zero).
    { destruct (sampling_loop_peak ticks w w1 _ Hloop) as [H|(p & Hin & Hp)];
        [congruence|]. exact (Hall p _ Hin Hp). }
    rewrite Hz1. cbn. rewrite app_nil_r. now destruct w1.
Qed.

Lemma run_summary_iff_peak_positive_witness :
  (exists w', _run [main_thread_ended] new_monitor = (Ret Returned, w') /\
              stdout w' = []) /\
  (exists w', _run [pass alone_2e9; main_thread_ended] new_monitor = (Ret Returned, w') /\
              exists report,
                stdout w' = [Print report; Sleep default_interval;
                             Print (Summary two_gb)]) /\
  (exists w' report,
      _run [pass (proc 0 []); pass_after_stop (proc 0 [])] new_monitor =
        (Ret Returned, w') /\
      stdout w' = [Print report; Sleep default_interval; Print (Summary zero)]).
Proof.
  split; [|split].
  - destruct (run_summary_iff_peak_positive [main_thread_ended] new_monitor new_monitor
                eq_refl) as (w' & Hrun & _ & _ & Hsilent & _).
    exists w'. split; [exact Hrun|exact (Hsilent eq_refl)].
  - destruct (run_summary_iff_peak_positive [pass alone_2e9; main_thread_ended]
                new_monitor
                (snd (sampling_loop [pass alone_2e9; main_thread_ended] new_monitor))
                eq_refl) as (w' & Hrun & _ & Hprint & _).
    exists w'. split; [exact Hrun|].
    eexists. rewrite (Hprint eq_refl). reflexivity.
  - destruct (run_summary_iff_peak_positive
                [pass (proc 0 []); pass_after_stop (proc 0 [])] new_monitor
                (snd (sampling_loop [pass (proc 0 []); pass_after_stop (proc 0 [])]
                                    new_monitor))
                eq_refl) as (w' & Hrun & _ & _ & _ & Hzero).
    exists w'. eexists. split; [exact Hrun|].
    rewrite Hzero; [reflexivity|reflexivity|].
    intros p v [<-|[<-|[<-|[]]]]; cbn; now intros [= <-].
Defined.

(** C4, as the code has it.  When the loop of [_run] is left at a tick,
    because the main thread has ended or because [should_continue] is
    false, [_run] returns without sampling again: the handle's answers at
    that tick play no part, the object stays as it was at the test, and the
    summary of the stored peak is printed when that peak is above zero. *)
Theorem run_end_reports_stored_peak (before : list tick) (t : tick)
        (rest : list tick) (w w1 : world) :
  sampling_loop before w = (Ret false, w1) ->
  main_thread_is_alive t = false \/
  should_continue (self (snd (host_activity t w1))) = false ->
  let w2 := snd (host_activity t w1) in
  exists w',
    _run (before ++ t :: rest) w = (Ret Returned, w') /\
    self w' = self w2 /\
    stdout w' = stdout w2 ++
                (if gt (peak w2) zero then [Print (Summary (peak w2))] else []).
Proof.
  intros Hbefore Hexit w2. exists (after_loop w2).
  rewrite run_unfold, sampling_loop_app, Hbefore, sampling_loop_cons.
  cbv zeta. fold w2.
  assert (Hleft : (if main_thread_is_alive t
                   then if negb (should_continue (self w2))
                        then (Ret true, w2)
                        else match log (os t) (answers t) w2 with
                             | (Ret _, w3) =>
                                 sampling_loop rest
                                   {| self := self w3;
                                      stdout := stdout w3 ++ [Sleep (interval (self w3))] |}
                             | (Raise e, w3) => (Raise e, w3)
                             end
                   else (Ret true, w2)) = (Ret true, w2)).
  { destruct (main_thread_is_alive t); [|reflexivity].
    destruct Hexit as [Hexit|Hexit]; [discriminate|].
    fold w2 in Hexit. now rewrite Hexit. }
  rewrite Hleft. repeat split.
Qed.

Lemma run_end_reports_stored_peak_witness :
  (exists w', _run [pass alone_1e9; main_thread_ended] new_monitor = (Ret Returned, w') /\
              peak w' = one_gb) /\
  (exists w', _run [pass alone_1e9; pass_after_stop alone_1e9; pass alone_2e9]
                   new_monitor = (Ret Returned, w') /\
              peak w' = one_gb).
Proof.
  split.
  - destruct (run_end_reports_stored_peak [pass alone_1e9] main_thread_ended []
                new_monitor (snd (sampling_loop [pass alone_1e9] new_monitor))
                eq_refl (or_introl eq_refl)) as (w' & Hrun & Hself & _).
    exists w'. split; [exact Hrun|]. unfold peak. now rewrite Hself.
  - destruct (run_end_reports_stored_peak [pass alone_1e9] (pass_after_stop alone_1e9)
                [pass alone_2e9]
                new_monitor (snd (sampling_loop [pass alone_1e9] new_monitor))
                eq_refl (or_intror eq_refl)) as (w' & Hrun & Hself & _).
    exists w'. split; [exact Hrun|]. unfold peak. now rewrite Hself.
Defined.

(** C4, as stated, fails.  A new monitor whose main thread has already
    ended leaves its loop at once and returns unchanged, having printed
    nothing, although the tree holds 1e9 bytes at that moment.  After one
    pass that saw 1e9 bytes, with 2e9 bytes in the tree when the main
    thread ends, the peak stays at [1.0]. *)
Lemma run_end_takes_no_final_sample :
  _run [main_thread_ended] new_monitor = (Ret Returned, new_monitor) /\
  get_total_rss_gb (answers main_thread_ended) = Ret one_gb /\
  ~ final_sample_and_summary main_thread_ended new_monitor new_monitor /\
  let last := {| main_thread_is_alive := false; host_stop := None;
                 os := sample_os; answers := alone_2e9 |} in
  let w1 := snd (sampling_loop [pass alone_1e9] new_monitor) in
  let w' := snd (_run [pass alone_1e9; last] new_monitor) in
  fst (_run [pass alone_1e9; last] new_monitor) = Ret Returned /\
  peak w1 = one_gb /\
  peak w' = one_gb /\
  ~ final_sample_and_summary last w1 w'.
Proof.
  split; [reflexivity|split; [reflexivity|split]].
  - intros (v & _ & _ & Hout). discriminate Hout.
  - cbv zeta. split; [reflexivity|split; [reflexivity|split; [reflexivity|]]].
    intros (v & Hv & Hpeak & _).
    injection Hv as <-. discriminate Hpeak.
Qed.

(** C6, as the code has it.  The class takes no lock and has no
    compare-and-set.  When the update made by [log] and the update made by
    [stop] do not overlap, one being over before the other starts, in
    either order, the stored peak ends at least as large as both observed
    values, and as the value stored before. *)
Theorem peak_update_without_overlap (pk v_log v_stop : float) (a b : nat)
        (schedule : list thread) :
  is_nan pk = false -> is_nan v_log = false -> is_nan v_stop = false ->
  schedule = log_then_stop a b \/ schedule = stop_then_log a b ->
  let c := race schedule (race_start pk v_log v_stop) in
  race_over c = true /\
  le v_log (shared_peak c) = true /\
  le v_stop (shared_peak c) = true /\
  le pk (shared_peak c) = true.
Proof.
  intros Hpk Hlog Hstop [-> | ->]; cbv zeta; unfold race_start.
  - unfold log_then_stop. rewrite race_app, race_log_alone, race_stop_alone.
    cbn [shared_peak in_log in_stop]. repeat split.
    + apply le_trans with (y := update_peak v_log pk).
      * now apply update_peak_above_new.
      * apply update_peak_above_old. now apply update_peak_not_nan.
    + apply update_peak_above_new; [exact Hstop|now apply update_peak_not_nan].
    + apply le_trans with (y := update_peak v_log pk).
      * now apply update_peak_above_old.
      * apply update_peak_above_old. now apply update_peak_not_nan.
  - unfold stop_then_log. rewrite race_app, race_stop_alone, race_log_alone.
    cbn [shared_peak in_log in_stop]. repeat split.
    + apply update_peak_above_new; [exact Hlog|now apply update_peak_not_nan].
    + apply le_trans with (y := update_peak v_stop pk).
      * now apply update_peak_above_new.
      * apply update_peak_above_old. now apply update_peak_not_nan.
    + apply le_trans with (y := update_peak v_stop pk).
      * now apply update_peak_above_old.
      * apply update_peak_above_old. now apply update_peak_not_nan.
Qed.

Lemma peak_update_without_overlap_witness :
  shared_peak (race (log_then_stop 0 0) (race_start zero two_gb one_gb)) = two_gb /\
  le two_gb (shared_peak (race (stop_then_log 0 0) (race_start zero two_gb one_gb))) = true.
Proof.
  destruct (peak_update_without_overlap zero two_gb one_gb 0 0 (stop_then_log 0 0)
              eq_refl eq_refl eq_refl (or_intror eq_refl)) as (_ & H & _).
  split; [reflexivity|exact H].
Defined.

(** C6, as stated, fails.  The peak is [0.0]; [log] has observed 2 GB and
    [stop] 1 GB.  Both compare with the stored [0.0] before either stores:
    [log] stores [2.0], then [stop] stores [1.0] over it. *)
Lemma higher_sample_lost_when_updates_overlap :
  let schedule := [SamplingThread; HostThread; SamplingThread; HostThread] in
  let c := race schedule (race_start zero two_gb one_gb) in
  race_over c = true /\
  shared_peak c = one_gb /\
  le two_gb (shared_peak c) = false /\
  ~ no_lost_update zero two_gb one_gb.
Proof.
  cbv zeta. split; [reflexivity|split; [reflexivity|split; [reflexivity|]]].
  intros H.
  destruct (H [SamplingThread; HostThread; SamplingThread; HostThread] eq_refl)
    as [Hlost _].
  discriminate Hlost.
Qed.

(** * Further properties of the class *)

(** ** The loop while nothing intervenes *)









(** ** The ways the loop ends *)

Lemma sampling_loop_after_stop (t : tick) (rest : list tick) (p : Process) (w : world) :
  host_stop t = Some p ->
  sampling_loop (t :: rest) w = (Ret true, snd (stop p w)).
Proof.
  intros Hs. rewrite sampling_loop_cons. cbv zeta.
  assert (Hw2 : snd (host_activity t w) = snd (stop p w))
    by (unfold host_activity; now rewrite Hs).
  rewrite Hw2.
  assert (Hflag : should_continue (self (snd (stop p w))) = false)
    by (rewrite stop_unfold; destruct (get_total_rss_gb p); reflexivity).
  rewrite Hflag. now destruct (main_thread_is_alive t).
Qed.

(** X3.  Once the host has called [stop], the loop of [_run] is left at
    its next test whatever else holds: no report is printed on that pass or
    later.  [stop] has printed the summary of the peak including its own
    sample; [_run] prints the same summary again when that peak is above
    zero, so the line then appears twice.  If [stop] itself raised, the
    flag is cleared all the same and [_run] still ends. *)
Theorem stop_ends_loop_and_repeats_summary (before : list tick) (t : tick)
        (rest : list tick) (p : Process) (w0 w : world) :
  sampling_loop before w0 = (Ret false, w) ->
  host_stop t = Some p ->
  (forall v,
      get_total_rss_gb p = Ret v ->
      let pk := if gt v (peak w) then v else peak w in
      _run (before ++ t :: rest) w0 =
      (Ret Returned,
       {| self := {| should_continue := false;
                     interval := interval (self w);
                     max_total_rss := pk |};
          stdout := stdout w ++
                    Print (Summary pk) ::
                    (if gt pk zero then [Print (Summary pk)] else []) |})) /\
  (forall e,
      get_total_rss_gb p = Raise e ->
      _run (before ++ t :: rest) w0 = (Ret Returned, after_loop (flagged w))).
Proof.
  intros Hbefore Hs. split.
  - intros v Hv pk.
    rewrite run_unfold, sampling_loop_app, Hbefore, (sampling_loop_after_stop t rest p w Hs).
    rewrite stop_unfold, Hv. cbn [snd].
    unfold after_loop, stopped, peak, update_peak. cbn [self stdout max_total_rss].
    fold (peak w). fold pk. now rewrite <- app_assoc.
  - intros e He.
    rewrite run_unfold, sampling_loop_app, Hbefore, (sampling_loop_after_stop t rest p w Hs).
    now rewrite stop_unfold, He.
Qed.

Lemma stop_ends_loop_and_repeats_summary_witness :
  exists l,
    _run [pass alone_2e9; pass_after_stop alone_1e9; pass family] new_monitor =
    (Ret Returned,
     {| self := {| should_continue := false; interval := default_interval;
                   max_total_rss := two_gb |};
        stdout := [Print l; Sleep default_interval;
                   Print (Summary two_gb); Print (Summary two_gb)] |}).
Proof.
  destruct (stop_ends_loop_and_repeats_summary
              [pass alone_2e9] (pass_after_stop alone_1e9) [pass family] alone_1e9
              new_monitor (snd (sampling_loop [pass alone_2e9] new_monitor))
              eq_refl eq_refl) as [H _].
  eexists. etransitivity; [exact (H one_gb eq_refl)|reflexivity].
Defined.

(** X4.  [_run] does not catch what [log] raises.  When [log] fails on a
    pass, [_run] ends with that exception, in the world [log] left: nothing
    more is printed, in particular no summary of the peak.  When the
    failure is the target's own [memory_info] (the target has exited, say),
    nothing at all was written or printed on that pass. *)
Theorem log_failure_ends_thread (before : list tick) (t : tick) (rest : list tick)
        (w0 w : world) :
  sampling_loop before w0 = (Ret false, w) ->
  main_thread_is_alive t = true -> host_stop t = None ->
  should_continue (self w) = true ->
  (forall e w', log (os t) (answers t) w = (Raise e, w') ->
                _run (before ++ t :: rest) w0 = (Raise e, w')) /\
  (forall e, memory_info (answers t) = Raise e ->
             _run (before ++ t :: rest) w0 = (Raise e, w)).
Proof.
  intros Hbefore Halive Hs Hgo.
  assert (Hquiet : snd (host_activity t w) = w)
    by (unfold host_activity; now rewrite Hs).
  assert (Hgen : forall e w', log (os t) (answers t) w = (Raise e, w') ->
                              _run (before ++ t :: rest) w0 = (Raise e, w')).
  { intros e w' Hlog.
    rewrite run_unfold, sampling_loop_app, Hbefore, sampling_loop_cons. cbv zeta.
    now rewrite Hquiet, Halive, Hgo, Hlog. }
  split; [exact Hgen|].
  intros e Hm. apply Hgen. now rewrite log_unfold, Hm.
Qed.

Lemma log_failure_ends_thread_witness :
  exists l,
    _run [pass alone_2e9; pass exited; pass alone_1e9] new_monitor =
    (Raise NoSuchProcess,
     {| self := {| should_continue := true; interval := default_interval;
                   max_total_rss := two_gb |};
        stdout := [Print l; Sleep default_interval] |}).
Proof.
  destruct (log_failure_ends_thread [pass alone_2e9] (pass exited) [pass alone_1e9]
              new_monitor (snd (sampling_loop [pass alone_2e9] new_monitor))
              eq_refl eq_refl eq_refl eq_refl) as [_ H].
  eexists. etransitivity; [exact (H NoSuchProcess eq_refl)|reflexivity].
Defined.

(** ** Failures that are not anticipated *)

Lemma children_loop_fails (pre post : list Process) (c : Process) (e : exn)
      (total_rss : Z) :
  forallb (fun c => fails_only_gone (memory_info c)) pre = true ->
  memory_info c = Raise e -> process_gone e = false ->
  for_each (pre ++ c :: post) (fun child =>
    try_except
      (child_mem <- lift (memory_info child) ;;
       modify (fun total_rss => total_rss + rss child_mem))
      process_gone
      (ret tt)) total_rss =
  (Raise e, total_rss + live_rss pre).
Proof.
  revert total_rss. induction pre as [|c0 pre IH]; intros total_rss Hpre Hc He.
  - cbn [app]. rewrite for_each_cons. cbv beta. rewrite child_step, Hc, He.
    unfold live_rss. simpl. now rewrite Z.add_0_r.
  - simpl forallb in Hpre. apply andb_prop in Hpre as [Hc0 Hpre].
    rewrite <- app_comm_cons, for_each_cons. cbv beta.
    rewrite child_step, live_rss_cons. unfold queryable, resident.
    destruct (memory_info c0) as [m0|e0]; simpl in Hc0.
    + rewrite (IH _ Hpre Hc He). f_equal. lia.
    + rewrite Hc0, (IH _ Hpre Hc He). f_equal.
Qed.

(** X5.  [get_total_rss_gb] swallows nothing but [NoSuchProcess] (with
    its subclass [ZombieProcess]) and [AccessDenied].  Any other exception
    leaves it unchanged, whether it comes from the target's own
    [memory_info], from [children], or from the [memory_info] of an
    enumerated process (the first one that fails so, those before it having
    answered or failed the anticipated way): no partial sum is returned. *)
Theorem aggregator_reraises_other_errors (p : Process) (e : exn) :
  process_gone e = false ->
  (memory_info p = Raise e -> get_total_rss_gb p = Raise e) /\
  (forall m, memory_info p = Ret m -> children p true = Raise e ->
             get_total_rss_gb p = Raise e) /\
  (forall m pre c post,
      memory_info p = Ret m -> children p true = Ret (pre ++ c :: post) ->
      forallb (fun c => fails_only_gone (memory_info c)) pre = true ->
      memory_info c = Raise e ->
      get_total_rss_gb p = Raise e).
Proof.
  intros He. unfold get_total_rss_gb. split; [|split].
  - intros Hm. now rewrite get_total_rss_gb_body_unfold, Hm, He.
  - intros m Hm Hc. rewrite get_total_rss_gb_body_unfold, Hm, Hc. cbv zeta.
    now rewrite !He.
  - intros m pre c post Hm Hc Hpre Hfail.
    rewrite get_total_rss_gb_body_unfold, Hm, Hc. cbv zeta.
    rewrite (children_loop_fails pre post c e (rss m) Hpre Hfail He).
    now rewrite !He.
Qed.

Lemma aggregator_reraises_other_errors_witness :
  get_total_rss_gb (proc (10 ^ 9) [exited; unreadable_child; proc (10 ^ 9) []]) =
  Raise OSError.
Proof.
  destruct (aggregator_reraises_other_errors
              (proc (10 ^ 9) [exited; unreadable_child; proc (10 ^ 9) []])
              OSError eq_refl) as (_ & _ & H).
  exact (H {| rss := 10 ^ 9; vms := 2 * 10 ^ 9 |} [exited] unreadable_child
           [proc (10 ^ 9) []] eq_refl eq_refl eq_refl eq_refl).
Defined.

(** X6.  The [except] clause of [stop] never fires: [stop] returns exactly
    when its call to [get_total_rss_gb] returns.  Whatever that call raises
    leaves [stop] too, after the flag was cleared and before anything is
    printed: the monitor is left stopped, with its peak untouched and no
    summary line. *)
Theorem stop_fails_only_with_aggregator (p : Process) (w : world) :
  (fst (stop p w) = Ret tt <-> exists v, get_total_rss_gb p = Ret v) /\
  (forall e,
      get_total_rss_gb p = Raise e ->
      stop p w =
      (Raise e,
       {| self := {| should_continue := false;
                     interval := interval (self w);
                     max_total_rss := max_total_rss (self w) |};
          stdout := stdout w |})).
Proof.
  rewrite stop_unfold. split; [split|].
  - destruct (get_total_rss_gb p) as [v|e]; [now exists v|discriminate].
  - intros [v ->]. reflexivity.
  - intros e ->. reflexivity.
Qed.

Lemma stop_fails_only_with_aggregator_witness :
  stop (proc (10 ^ 9) [unreadable_child]) (sampled two_gb new_monitor) =
  (Raise OSError,
   {| self := {| should_continue := false; interval := default_interval;
                 max_total_rss := two_gb |};
      stdout := [] |}).
Proof.
  destruct (stop_fails_only_with_aggregator (proc (10 ^ 9) [unreadable_child])
              (sampled two_gb new_monitor)) as [_ H].
  exact (H OSError eq_refl).
Defined.

(** ** The enumeration *)

(** X7.  The order in which the processes below the target are listed
    does not matter, nor does anything about the target but its resident
    size: two handles with the same resident size whose enumerations hold
    the same processes, in any order, all answering or failing the
    anticipated way, give the same result. *)
Theorem enumeration_order_is_irrelevant (p p' : Process) (m m' : pmem)
        (cs cs' : list Process) :
  memory_info p = Ret m -> memory_info p' = Ret m' -> rss m = rss m' ->
  children p true = Ret cs -> children p' true = Ret cs' ->
  Permutation cs cs' ->
  forallb (fun c => fails_only_gone (memory_info c)) cs = true ->
  get_total_rss_gb p = get_total_rss_gb p'.
Proof.
  intros Hm Hm' Hrss Hc Hc' Hperm Hall.
  assert (Hall' : forallb (fun c => fails_only_gone (memory_info c)) cs' = true).
  { rewrite forallb_forall in Hall |- *. intros c Hin.
    apply Hall. eapply Permutation_in; [apply Permutation_sym; exact Hperm|exact Hin]. }
  rewrite (get_total_rss_gb_anticipated p m Hm),
          (get_total_rss_gb_anticipated p' m' Hm').
  - unfold total_bytes. rewrite Hm, Hm', Hc, Hc', Hrss.
    now rewrite (live_rss_permutation cs cs' Hperm).
  - unfold tree_fails_only_gone. now rewrite Hc'.
  - unfold tree_fails_only_gone. now rewrite Hc.
Qed.

Lemma enumeration_order_is_irrelevant_witness :
  get_total_rss_gb (proc (10 ^ 9) [exited; proc (5 * 10 ^ 8) []; proc (7 * 10 ^ 8) []]) =
  get_total_rss_gb (proc (10 ^ 9) [proc (7 * 10 ^ 8) []; exited; proc (5 * 10 ^ 8) []]).
Proof.
  apply (enumeration_order_is_irrelevant _ _
           {| rss := 10 ^ 9; vms := 2 * 10 ^ 9 |} {| rss := 10 ^ 9; vms := 2 * 10 ^ 9 |}
           [exited; proc (5 * 10 ^ 8) []; proc (7 * 10 ^ 8) []]
           [proc (7 * 10 ^ 8) []; exited; proc (5 * 10 ^ 8) []]);
    try reflexivity.
  apply Permutation_sym.
  apply (Permutation_cons_app [exited; proc (5 * 10 ^ 8) []] [] (proc (7 * 10 ^ 8) [])).
  apply Permutation_refl.
Defined.

(** ** What no method undoes *)

Lemma perform_frame (c : call) (w : world) :
  interval (self (snd (perform c w))) = interval (self w) /\
  should_continue (self (snd (perform c w))) =
    should_continue (self w) && negb (is_stop c).
Proof.
  destruct c as [o p|p]; cbn [perform is_stop negb].
  - rewrite log_unfold, andb_true_r.
    destruct (memory_info p) as [m|]; [|now split].
    destruct (create_time p); [|now split].
    destruct (int_truediv_float (rss m) lit_1e9); [|now split].
    destruct (int_truediv_float (vms m) lit_1e9); [|now split].
    destruct (get_total_rss_gb p); [|now split].
    destruct (int_truediv_float (virtual_memory_available o) lit_1e9); now split.
  - rewrite stop_unfold, andb_false_r.
    destruct (get_total_rss_gb p); now split.
Qed.

Lemma carries_on_refl (w : world) : carries_on w w.
Proof.
  unfold carries_on. split; [reflexivity|]. split; [auto|].
  intros Hn. split; [exact Hn|now apply le_refl].
Qed.

Lemma carries_on_trans (w1 w2 w3 : world) :
  carries_on w1 w2 -> carries_on w2 w3 -> carries_on w1 w3.
Proof.
  intros (Hi1 & Hf1 & Hp1) (Hi2 & Hf2 & Hp2).
  split; [congruence|]. split; [auto|].
  intros H. destruct (Hp1 H) as [Hn Hle]. destruct (Hp2 Hn) as [Hn' Hle'].
  split; [exact Hn'|]. now apply le_trans with (y := peak w2).
Qed.

Lemma perform_carries_on (c : call) (w : world) : carries_on w (snd (perform c w)).
Proof.
  destruct (perform_frame c w) as [Hi Hf].
  split; [exact Hi|]. split.
  - rewrite Hf. now intros [H _]%andb_prop.
  - intros Hn. rewrite perform_peak. destruct (sample_of c) as [v|] eqn:Hs.
    + split; [|now apply update_peak_above_old].
      apply update_peak_not_nan; [|exact Hn].
      apply (get_total_rss_gb_not_nan (handle_of c)). now apply sample_of_total.
    + split; [exact Hn|now apply le_refl].
Qed.

Lemma lifetime_frame (calls : list call) (w : world) :
  interval (self (lifetime calls w)) = interval (self w) /\
  should_continue (self (lifetime calls w)) =
    should_continue (self w) && negb (existsb is_stop calls).
Proof.
  revert w. induction calls as [|c calls IH]; intros w.
  - cbn. now rewrite andb_true_r.
  - cbn [lifetime existsb]. destruct (IH (snd (perform c w))) as [Hi Hf].
    destruct (perform_frame c w) as [Hi' Hf'].
    split; [congruence|]. rewrite Hf, Hf', negb_orb. now rewrite andb_assoc.
Qed.

(** X8.  Neither [log] nor [stop] ever changes [self.interval], and
    nothing sets [should_continue] again: after any sequence of calls the
    interval is the one the monitor had, and the flag is set exactly when it
    was set before and [stop] was not among the calls. *)
Theorem flag_is_only_cleared (calls : list call) (w : world) :
  interval (self (lifetime calls w)) = interval (self w) /\
  (should_continue (self (lifetime calls w)) = true <->
   should_continue (self w) = true /\ existsb is_stop calls = false).
Proof.
  destruct (lifetime_frame calls w) as [Hi Hf]. split; [exact Hi|].
  rewrite Hf. split.
  - intros [H1 H2]%andb_prop. split; [exact H1|]. now apply negb_true_iff.
  - intros [H1 H2]. now rewrite H1, H2.
Qed.

Lemma sampling_loop_carries_on (ticks : list tick) (w : world) :
  carries_on w (snd (sampling_loop ticks w)).
Proof.
  revert w. induction ticks as [|t rest IH]; intros w.
  - cbn. apply carries_on_refl.
  - rewrite sampling_loop_cons. cbv zeta.
    assert (H2 : carries_on w (snd (host_activity t w))).
    { unfold host_activity, in_host_thread. destruct (host_stop t) as [p|].
      - cbn [snd]. apply (perform_carries_on (CallStop p)).
      - cbn. apply carries_on_refl. }
    set (w2 := snd (host_activity t w)) in *.
    destruct (main_thread_is_alive t); [|exact H2].
    destruct (negb (should_continue (self w2))); [exact H2|].
    pose proof (perform_carries_on (CallLog (os t) (answers t)) w2) as H3.
    cbn [perform] in H3.
    destruct (log (os t) (answers t) w2) as [[[]|e] w3]; cbn [snd] in H3.
    + eapply carries_on_trans; [exact H2|].
      eapply carries_on_trans; [exact H3|].
      eapply carries_on_trans; [|apply IH].
      unfold carries_on, peak. cbn [self].
      split; [reflexivity|]. split; [auto|].
      intros Hn. split; [exact Hn|now apply le_refl].
    + cbn [snd]. eapply carries_on_trans; [exact H2|exact H3].
Qed.

(** X9.  Through a whole run of [_run], whatever the passes bring (calls
    to [stop] by the host, failures, the end of the main thread): the
    interval is not changed, a cleared flag is never set again, and the
    stored peak, a number at the start, is a number no smaller at the
    end. *)
Theorem run_never_lowers_peak (ticks : list tick) (w : world) :
  is_nan (peak w) = false ->
  interval (self (snd (_run ticks w))) = interval (self w) /\
  (should_continue (self (snd (_run ticks w))) = true ->
   should_continue (self w) = true) /\
  is_nan (peak (snd (_run ticks w))) = false /\
  le (peak w) (peak (snd (_run ticks w))) = true.
Proof.
  intros Hn.
  assert (H : carries_on w (snd (_run ticks w))).
  { rewrite run_unfold.
    pose proof (sampling_loop_carries_on ticks w) as Hloop.
    destruct (sampling_loop ticks w) as [[[]|e] w1]; cbn [snd] in *; exact Hloop. }
  destruct H as (Hi & Hf & Hp). destruct (Hp Hn) as [Hn' Hle].
  repeat split; assumption.
Qed.

Lemma run_never_lowers_peak_witness :
  le (peak (sampled two_gb new_monitor))
     (peak (snd (_run [pass alone_1e9; pass_after_stop family; pass exited]
                      (sampled two_gb new_monitor)))) = true.
Proof.
  destruct (run_never_lowers_peak [pass alone_1e9; pass_after_stop family; pass exited]
              (sampled two_gb new_monitor) eq_refl) as (_ & _ & _ & H).
  exact H.
Defined.

(** ** Two unsynchronised updates, in any schedule *)

Lemma not_above_lower (a b c : float) :
  gt a c = false -> gt b c = true -> gt a b = false.
Proof.
  unfold gt, SFltb.
  destruct a as [s|s| |s m e], b as [s'|s'| |s' m' e'], c as [s''|s''| |s'' m'' e''];
    simpl; try discriminate; try reflexivity;
    try destruct s; try destruct s'; try destruct s''; simpl;
    try discriminate; try reflexivity; order_cases.
Qed.

Lemma update_peak_not_above (a v pk : float) :
  gt a pk = false -> gt a (update_peak v pk) = false.
Proof.
  intros Ha. unfold update_peak. destruct (gt v pk) eqn:Hv; [|exact Ha].
  now apply not_above_lower with (c := pk).
Qed.

Lemma race_bounded_step (pk v_log v_stop : float) (who : thread) (c : racing) :
  is_nan pk = false ->
  race_bounded pk v_log v_stop c -> race_bounded pk v_log v_stop (race_step who c).
Proof.
  intros Hpk (Hl & Hs & Hshared & Hlog & Hstop).
  assert (Hle : le pk (shared_peak c) = true).
  { destruct Hshared as [-> |[[-> H]|[-> H]]]; auto. now apply le_refl. }
  destruct c as [S [vl pl] [vs ps]]. cbn in *. subst vl vs.
  unfold race_bounded.
  destruct who; unfold race_step, updater_step; cbn [in_log in_stop shared_peak pc observed].
  - destruct pl; cbn [pc].
    + destruct (gt v_log S) eqn:Hgt; cbn [in_log in_stop shared_peak pc observed].
      * assert (le pk v_log = true)
          by (apply le_trans with (y := S); [exact Hle|now apply gt_le]).
        intuition (try discriminate; auto).
      * intuition (try discriminate; auto).
    + cbn [in_log in_stop shared_peak pc observed].
      specialize (Hlog eq_refl). intuition (try discriminate; auto).
    + cbn [in_log in_stop shared_peak pc observed]. intuition (try discriminate; auto).
  - destruct ps; cbn [pc].
    + destruct (gt v_stop S) eqn:Hgt; cbn [in_log in_stop shared_peak pc observed].
      * assert (le pk v_stop = true)
          by (apply le_trans with (y := S); [exact Hle|now apply gt_le]).
        intuition (try discriminate; auto).
      * intuition (try discriminate; auto).
    + cbn [in_log in_stop shared_peak pc observed].
      specialize (Hstop eq_refl). intuition (try discriminate; auto).
    + cbn [in_log in_stop shared_peak pc observed]. intuition (try discriminate; auto).
Qed.

Lemma log_alone_stores_step (pk v_log v_stop : float) (who : thread) (c : racing) :
  gt v_stop pk = false ->
  log_alone_stores pk v_log v_stop c ->
  log_alone_stores pk v_log v_stop (race_step who c).
Proof.
  intros Hlow (Hl & Hs & Hns & Hpc).
  destruct c as [S [vl pl] [vs ps]]. cbn in *. subst vl vs.
  unfold log_alone_stores.
  destruct who; unfold race_step, updater_step; cbn [in_log in_stop shared_peak pc observed].
  - destruct pl; cbn [pc] in *.
    + subst S. unfold update_peak.
      destruct (gt v_log pk) eqn:Hgt; cbn [in_log in_stop shared_peak pc observed];
        intuition auto.
    + destruct Hpc as [-> Hgt]. cbn [in_log in_stop shared_peak pc observed].
      unfold update_peak. rewrite Hgt. intuition auto.
    + cbn [in_log in_stop shared_peak pc observed]. intuition auto.
  - destruct ps; cbn [pc] in *; [|congruence|].
    + assert (Hno : gt v_stop S = false).
      { destruct pl.
        - now subst S.
        - destruct Hpc as [-> _]. exact Hlow.
        - subst S. now apply update_peak_not_above. }
      rewrite Hno. cbn [in_log in_stop shared_peak pc observed].
      intuition (try discriminate; auto).
    + cbn [in_log in_stop shared_peak pc observed]. intuition auto.
Qed.

Lemma stop_alone_stores_step (pk v_log v_stop : float) (who : thread) (c : racing) :
  gt v_log pk = false ->
  stop_alone_stores pk v_log v_stop c ->
  stop_alone_stores pk v_log v_stop (race_step who c).
Proof.
  intros Hlow (Hl & Hs & Hns & Hpc).
  destruct c as [S [vl pl] [vs ps]]. cbn in *. subst vl vs.
  unfold stop_alone_stores.
  destruct who; unfold race_step, updater_step; cbn [in_log in_stop shared_peak pc observed].
  - destruct pl; cbn [pc] in *; [|congruence|].
    + assert (Hno : gt v_log S = false).
      { destruct ps.
        - now subst S.
        - destruct Hpc as [-> _]. exact Hlow.
        - subst S. now apply update_peak_not_above. }
      rewrite Hno. cbn [in_log in_stop shared_peak pc observed].
      intuition (try discriminate; auto).
    + cbn [in_log in_stop shared_peak pc observed]. intuition auto.
  - destruct ps; cbn [pc] in *.
    + subst S. unfold update_peak.
      destruct (gt v_stop pk) eqn:Hgt; cbn [in_log in_stop shared_peak pc observed];
        intuition auto.
    + destruct Hpc as [-> Hgt]. cbn [in_log in_stop shared_peak pc observed].
      unfold update_peak. rewrite Hgt. intuition auto.
    + cbn [in_log in_stop shared_peak pc observed]. intuition auto.
Qed.

Lemma race_invariant (I : racing -> Prop) (schedule : list thread) (c : racing) :
  (forall who c, I c -> I (race_step who c)) -> I c -> I (race schedule c).
Proof.
  intros Hstep. revert c. induction schedule as [|who rest IH]; intros c Hc; simpl; auto.
Qed.

(** X10.  The two unsynchronised peak updates (the one in [log], the one
    in [stop]), run in any interleaving whatever: the stored peak is never
    left below the value it had before them, and it is that value or one
    of the two samples.  The higher sample can be lost only when both
    samples are above the stored peak: if at most one is, the peak ends at
    least as large as both, whatever the schedule. *)
Theorem race_outcomes (pk v_log v_stop : float) (schedule : list thread) :
  is_nan pk = false -> is_nan v_log = false -> is_nan v_stop = false ->
  let c := race schedule (race_start pk v_log v_stop) in
  le pk (shared_peak c) = true /\
  (shared_peak c = pk \/ shared_peak c = v_log \/ shared_peak c = v_stop) /\
  (race_over c = true ->
   gt v_log pk = false \/ gt v_stop pk = false ->
   le v_log (shared_peak c) = true /\ le v_stop (shared_peak c) = true).
Proof.
  intros Hpk Hlog Hstop c.
  assert (Hb : race_bounded pk v_log v_stop c).
  { apply race_invariant.
    - intros who c0. now apply race_bounded_step.
    - unfold race_bounded, race_start. cbn. intuition (try discriminate; auto). }
  destruct Hb as (_ & _ & Hshared & _ & _).
  split; [|split].
  - destruct Hshared as [-> |[[-> H]|[-> H]]]; auto. now apply le_refl.
  - destruct Hshared as [H|[[H _]|[H _]]]; auto.
  - intros Hover [Hlow|Hlow].
    + assert (Hs : stop_alone_stores pk v_log v_stop c).
      { apply race_invariant.
        - intros who c0. now apply stop_alone_stores_step.
        - unfold stop_alone_stores, race_start. cbn. intuition (try discriminate; auto). }
      destruct Hs as (_ & _ & _ & Hpc).
      unfold race_over, at_end in Hover. apply andb_prop in Hover as [_ Hend].
      destruct (pc (in_stop c)); try discriminate. rewrite Hpc. split.
      * apply le_trans with (y := pk); [now apply not_gt_le|].
        now apply update_peak_above_old.
      * now apply update_peak_above_new.
    + assert (Hs : log_alone_stores pk v_log v_stop c).
      { apply race_invariant.
        - intros who c0. now apply log_alone_stores_step.
        - unfold log_alone_stores, race_start. cbn. intuition (try discriminate; auto). }
      destruct Hs as (_ & _ & _ & Hpc).
      unfold race_over, at_end in Hover. apply andb_prop in Hover as [Hend _].
      destruct (pc (in_log c)); try discriminate. rewrite Hpc. split.
      * now apply update_peak_above_new.
      * apply le_trans with (y := pk); [now apply not_gt_le|].
        now apply update_peak_above_old.
Qed.

Lemma race_outcomes_witness :
  let c := race [SamplingThread; HostThread; SamplingThread; HostThread]
                (race_start one_gb two_gb one_gb) in
  le one_gb (shared_peak c) = true /\
  le two_gb (shared_peak c) = true /\ le one_gb (shared_peak c) = true.
Proof.
  destruct (race_outcomes one_gb two_gb one_gb
              [SamplingThread; HostThread; SamplingThread; HostThread]
              eq_refl eq_refl eq_refl) as (H1 & _ & H2).
  split; [exact H1|]. exact (H2 eq_refl (or_intror eq_refl)).
Defined.

(** ** How the calls compose *)

Lemma gt_irrefl (v : float) : gt v v = false.
Proof.
  unfold gt, SFltb. destruct v as [s|s| |s m e]; simpl; try reflexivity.
  - destruct s; reflexivity.
  - destruct s; order_cases.
Qed.

Lemma update_peak_idempotent (v pk : float) :
  update_peak v (update_peak v pk) = update_peak v pk.
Proof.
  unfold update_peak. destruct (gt v pk) eqn:Hgt.
  - now rewrite gt_irrefl.
  - now rewrite Hgt.
Qed.

(** X11.  Calling [stop] a second time, the tree being as it was, leaves
    the object as the first call left it and prints the same summary line
    once more. *)
Theorem stop_twice (p : Process) (w : world) (v : float) :
  get_total_rss_gb p = Ret v ->
  let pk := if gt v (peak w) then v else peak w in
  stop p (snd (stop p w)) =
  (Ret tt,
   {| self := self (snd (stop p w));
      stdout := stdout w ++ [Print (Summary pk); Print (Summary pk)] |}).
Proof.
  intros Hv pk. rewrite !stop_unfold, Hv. cbn [snd].
  unfold stopped, peak. cbn [self stdout max_total_rss interval].
  rewrite !update_peak_idempotent. subst pk. unfold update_peak, peak.
  now rewrite <- app_assoc.
Qed.

Lemma stop_twice_witness :
  stop family (snd (stop family new_monitor)) =
  (Ret tt,
   {| self := {| should_continue := false; interval := default_interval;
                 max_total_rss := two_gb |};
      stdout := [Print (Summary two_gb); Print (Summary two_gb)] |}).
Proof. exact (stop_twice family new_monitor two_gb eq_refl). Defined.

(** X13.  The summary [stop] prints bounds everything observed: after any
    sequence of [log] and [stop] calls on a monitor whose peak is a number,
    a [stop] that returns prints, as its one line, a value that is at least
    its own final sample and at least every sample taken by the calls
    before it. *)
Theorem stop_summary_bounds_every_sample (calls : list call) (w0 : world)
        (p : Process) (v : float) :
  is_nan (peak w0) = false ->
  get_total_rss_gb p = Ret v ->
  let w := lifetime calls w0 in
  exists pk,
    stop p w =
    (Ret tt,
     {| self := {| should_continue := false; interval := interval (self w0);
                   max_total_rss := pk |};
        stdout := stdout w ++ [Print (Summary pk)] |}) /\
    le v pk = true /\
    le (peak w0) pk = true /\
    (forall u, In u (samples calls) -> le u pk = true).
Proof.
  intros Hn Hv w. exists (update_peak v (peak w)).
  assert (Hnw : is_nan (peak w) = false).
  { subst w. rewrite lifetime_peak.
    apply running_max_not_nan; [apply samples_not_nan|exact Hn]. }
  assert (Hnv : is_nan v = false) by now apply (get_total_rss_gb_not_nan p).
  split; [|split; [|split]].
  - rewrite stop_unfold, Hv. unfold stopped. f_equal. f_equal. f_equal.
    subst w. now destruct (lifetime_frame calls w0).
  - now apply update_peak_above_new.
  - apply le_trans with (y := peak w); [|now apply update_peak_above_old].
    subst w. rewrite lifetime_peak.
    apply running_max_above_start; [apply samples_not_nan|exact Hn].
  - intros u Hu. apply le_trans with (y := peak w); [|now apply update_peak_above_old].
    subst w. rewrite lifetime_peak.
    apply running_max_above_each; [apply samples_not_nan|exact Hn|exact Hu].
Qed.

Lemma stop_summary_bounds_every_sample_witness :
  exists pk,
    stdout (snd (stop alone_1e9
                   (lifetime [CallLog sample_os alone_1e9; CallLog sample_os alone_2e9;
                              CallLog sample_os alone_1e9] new_monitor))) =
    stdout (lifetime [CallLog sample_os alone_1e9; CallLog sample_os alone_2e9;
                      CallLog sample_os alone_1e9] new_monitor) ++ [Print (Summary pk)] /\
    le two_gb pk = true.
Proof.
  destruct (stop_summary_bounds_every_sample
              [CallLog sample_os alone_1e9; CallLog sample_os alone_2e9;
               CallLog sample_os alone_1e9] new_monitor alone_1e9 one_gb
              eq_refl eq_refl) as (pk & Hstop & _ & _ & Hall).
  exists pk. split.
  - now rewrite Hstop.
  - apply Hall. right. now left.
Defined.

(** X14.  A report line and the stored peak agree.  When [log] returns it
    has printed exactly one line, a report whose total is what
    [get_total_rss_gb] returned; the stored peak is then that total if it
    was above the peak and the old peak otherwise, so it is at least the
    total just printed; the flag and the interval are untouched.  When
    [log] raises it has printed nothing. *)
Theorem log_report_is_tracked (o : OS) (p : Process) (w : world) :
  (forall w',
      log o p w = (Ret tt, w') ->
      exists dt rss_gb total vms_gb avail,
        stdout w' = stdout w ++ [Print (Report dt rss_gb total vms_gb avail)] /\
        get_total_rss_gb p = Ret total /\
        peak w' = (if gt total (peak w) then total else peak w) /\
        (is_nan (peak w) = false -> le total (peak w') = true) /\
        should_continue (self w') = should_continue (self w) /\
        interval (self w') = interval (self w)) /\
  (forall e w', log o p w = (Raise e, w') -> stdout w' = stdout w).
Proof.
  rewrite log_unfold.
  destruct (memory_info p) as [m|e0]; [|split; [discriminate|now intros e w' [= _ <-]]].
  destruct (create_time p) as [created|e0];
    [|split; [discriminate|now intros e w' [= _ <-]]].
  destruct (int_truediv_float (rss m) lit_1e9) as [rss_gb|e0];
    [|split; [discriminate|now intros e w' [= _ <-]]].
  destruct (int_truediv_float (vms m) lit_1e9) as [vms_gb|e0];
    [|split; [discriminate|now intros e w' [= _ <-]]].
  destruct (get_total_rss_gb p) as [total|e0] eqn:Hg;
    [|split; [discriminate|now intros e w' [= _ <-]]].
  destruct (int_truediv_float (virtual_memory_available o) lit_1e9) as [avail|e0];
    [|split; [discriminate|now intros e w' [= _ <-]]].
  split; [|discriminate].
  intros w' [= <-]. eexists _, _, _, _, _.
  split; [reflexivity|]. split; [reflexivity|]. split; [reflexivity|].
  split; [|split; reflexivity].
  intros Hn. unfold peak at 1. cbn [self sampled max_total_rss].
  apply update_peak_above_new; [|exact Hn].
  now apply (get_total_rss_gb_not_nan p).
Qed.

Lemma log_report_is_tracked_witness :
  exists w' l,
    log sample_os family (sampled one_gb new_monitor) = (Ret tt, w') /\
    stdout w' = [Print l] /\ peak w' = two_gb.
Proof.
  destruct (log_report_is_tracked sample_os family (sampled one_gb new_monitor))
    as [H _].
  destruct (H (snd (log sample_os family (sampled one_gb new_monitor))) eq_refl)
    as (dt & r & total & vm & a & Hout & Hg & Hpk & _).
  exists (snd (log sample_os family (sampled one_gb new_monitor))),
         (Report dt r total vm a).
  split; [reflexivity|]. split; [exact Hout|].
  rewrite Hpk. injection Hg as <-. reflexivity.
Defined.

(** ** Nesting *)

Lemma live_rss_app (cs1 cs2 : list Process) :
  live_rss (cs1 ++ cs2) = live_rss cs1 + live_rss cs2.
Proof.
  induction cs1 as [|c cs1 IH]; [reflexivity|].
  rewrite <- app_comm_cons, !live_rss_cons, IH. lia.
Qed.

Lemma descendants_children (k : Process) :
  children k true = match child_processes k with
                    | Ret _ => Ret (descendants k)
                    | Raise e => Raise e
                    end.
Proof. destruct k as [mi ct [kk|e]]; reflexivity. Qed.

Lemma total_bytes_subtree (k : Process) :
  queryable k = true -> total_bytes k = live_rss (k :: descendants k).
Proof.
  unfold queryable, total_bytes. rewrite live_rss_cons, descendants_children.
  unfold queryable, resident.
  destruct (memory_info k) as [m|]; [intros _|discriminate].
  destruct k as [mi ct [kk|e]]; reflexivity.
Qed.

Lemma live_rss_subtrees (kids : list Process) :
  forallb queryable kids = true ->
  live_rss (flat_map (fun c => c :: descendants c) kids) =
  fold_right Z.add 0 (map total_bytes kids).
Proof.
  induction kids as [|k kids IH]; [reflexivity|].
  simpl forallb. intros [Hk Hkids]%andb_prop.
  cbn [flat_map map fold_right]. rewrite live_rss_app, (IH Hkids).
  now rewrite (total_bytes_subtree k Hk).
Qed.

Lemma subtree_in_enumeration (kids : list Process) (k : Process) :
  In k kids ->
  incl (k :: descendants k) (flat_map (fun c => c :: descendants c) kids) /\
  (List.length (descendants k) <=
   List.length (flat_map (fun c => c :: descendants c) kids))%nat.
Proof.
  induction kids as [|k0 kids IH]; [intros []|].
  intros [-> |Hin]; cbn [flat_map]; rewrite length_app; cbn [List.length].
  - split; [|lia]. intros x Hx. apply in_or_app. now left.
  - destruct (IH Hin) as [Hincl Hlen]. split; [|lia].
    intros x Hx. apply in_or_app. right. now apply Hincl.
Qed.

Lemma forallb_incl {A : Type} (f : A -> bool) (l l' : list A) :
  incl l l' -> forallb f l' = true -> forallb f l = true.
Proof.
  intros Hincl Hall. rewrite forallb_forall in Hall |- *. auto.
Qed.

Lemma child_plausible (m : pmem) (ct : result float) (kids : list Process)
      (k : Process) :
  In k kids ->
  plausible (mkProcess (Ret m) ct (Ret kids)) = true -> plausible k = true.
Proof.
  intros Hin. unfold plausible at 1. cbn [children child_processes memory_info].
  intros [_ [Hsz Hlen]%andb_prop]%andb_prop.
  destruct (subtree_in_enumeration kids k Hin) as [Hincl Hle].
  pose proof (forallb_incl _ _ _ Hincl Hsz) as Hsub. simpl forallb in Hsub.
  apply andb_prop in Hsub as [Hk Hdesc].
  unfold plausible. rewrite Hk, descendants_children. cbn [andb].
  destruct (child_processes k); [|reflexivity].
  rewrite Hdesc. cbn [andb]. apply Z.ltb_lt. apply Z.ltb_lt in Hlen. lia.
Qed.

Lemma enumeration_fails_only_gone (kids : list Process) :
  forallb queryable kids = true ->
  forallb tree_fails_only_gone kids = true ->
  forallb (fun c => fails_only_gone (memory_info c))
          (flat_map (fun c => c :: descendants c) kids) = true.
Proof.
  induction kids as [|k kids IH]; [reflexivity|].
  simpl forallb. intros [Hk Hkids]%andb_prop [Ht Hts]%andb_prop.
  cbn [flat_map]. rewrite forallb_app, (IH Hkids Hts), andb_true_r.
  simpl forallb. unfold queryable in Hk.
  destruct (memory_info k) as [mk|]; [|discriminate]. cbn [fails_only_gone andb].
  unfold tree_fails_only_gone in Ht. rewrite descendants_children in Ht.
  destruct k as [mi ct [kk|e]]; [exact Ht|reflexivity].
Qed.

(** X12.  Nesting does not matter.  For a target that answers, whose
    children all answer, the result is the target's own size plus, for each
    child, the bytes [get_total_rss_gb] adds up for that child (the child
    and everything below it), the whole converted once; and each child,
    taken as a target of its own, gives exactly its share. *)
Theorem aggregate_is_sum_over_subtrees (m : pmem) (ct : result float)
        (kids : list Process) :
  let p := mkProcess (Ret m) ct (Ret kids) in
  plausible p = true ->
  forallb queryable kids = true ->
  forallb tree_fails_only_gone kids = true ->
  get_total_rss_gb p =
    Ret (gb (rss m + fold_right Z.add 0 (map total_bytes kids))) /\
  (forall k, In k kids -> get_total_rss_gb k = Ret (gb (total_bytes k))).
Proof.
  intros p Hp Hq Ht. split.
  - assert (Htree : tree_fails_only_gone p = true).
    { unfold tree_fails_only_gone, p. cbn [children child_processes].
      now apply enumeration_fails_only_gone. }
    rewrite (get_total_rss_gb_live p m eq_refl Htree Hp).
    unfold gb, total_bytes at 1, p. cbn [memory_info children child_processes].
    now rewrite (live_rss_subtrees kids Hq).
  - intros k Hin.
    pose proof (child_plausible m ct kids k Hin Hp) as Hpk.
    rewrite forallb_forall in Hq, Ht.
    specialize (Hq k Hin). specialize (Ht k Hin).
    unfold queryable in Hq. destruct (memory_info k) as [mk|] eqn:Hmk; [|discriminate].
    now apply (get_total_rss_gb_live k mk).
Qed.

Lemma aggregate_is_sum_over_subtrees_witness :
  get_total_rss_gb (proc (10 ^ 9) [proc (5 * 10 ^ 8) [proc (5 * 10 ^ 8) []];
                                   proc (10 ^ 9) []]) =
  Ret (gb (10 ^ 9 + (10 ^ 9 + (10 ^ 9 + 0)))) /\
  get_total_rss_gb (proc (5 * 10 ^ 8) [proc (5 * 10 ^ 8) []]) = Ret one_gb.
Proof.
  destruct (aggregate_is_sum_over_subtrees
              {| rss := 10 ^ 9; vms := 2 * 10 ^ 9 |} started
              [proc (5 * 10 ^ 8) [proc (5 * 10 ^ 8) []]; proc (10 ^ 9) []]
              eq_refl eq_refl eq_refl) as [Hsum Hkid].
  split; [exact Hsum|]. exact (Hkid _ (or_introl eq_refl)).
Defined.
